(** * MPC.cpp: the optimisation problem of the model predictive controller

    A shallow embedding of [src/MPC.cpp]: the flat layout of the horizon
    (the [idx*] globals), the cost and constraint evaluator
    [FG_eval::operator()] and the controller entry point [MPC::Solve].

    - [size_t] and [uint] values are integers in [Z]; every addition,
      subtraction and multiplication of the source is reduced modulo [2^64],
      and a [uint] loop counter lives modulo [2^32].
    - The scalar type of the evaluator ([CppAD::AD<double>], and [double] in
      [Solve]) is an interface [Scalar]: the arithmetic and the elementary
      functions the source calls.  The theorems hold for every
      implementation of it; the real numbers are the instance used for
      concrete runs.
    - A vector ([ADvector], [Dvector], [Eigen::VectorXd], [std::vector]) is a
      list; an access outside the vector is undefined behaviour in the
      source and [None] here, so the evaluator and [Solve] run in the option
      monad.
    - The nonlinear solver [CppAD::ipopt::solve] is not part of the
      repository: it is a parameter of [Solve]. *)

From Stdlib Require Import ZArith QArith Reals Lra Lia String.
From stdpp Require Import base list option.

Local Open Scope Z_scope.

(** ** Machine integers *)

Definition SIZE_WIDTH : Z := 64.
Definition UINT_MAX : Z := 2 ^ 32 - 1.

(** Conversion of an integer to [size_t]. *)
Definition to_size_t (z : Z) : Z := z mod 2 ^ SIZE_WIDTH.

(** Conversion of an integer to [uint]. *)
Definition to_uint (z : Z) : Z := z mod 2 ^ 32.

Definition size_add (a b : Z) : Z := to_size_t (a + b).
Definition size_sub (a b : Z) : Z := to_size_t (a - b).
Definition size_mul (a b : Z) : Z := to_size_t (a * b).

Infix "⊕" := size_add (at level 50, left associativity).
Infix "⊖" := size_sub (at level 50, left associativity).
Infix "⊗" := size_mul (at level 40, left associativity).

(** ** Scalars *)

(** The operations [FG_eval] and [Solve] use on [AD<double>] and [double].
    [s_lit] injects a numeric literal of the source, [s_pow] is
    [CppAD::pow] with an [int] exponent. *)
Class Scalar (T : Type) := {
  s_lit : Q → T;
  s_add : T → T → T;
  s_sub : T → T → T;
  s_mul : T → T → T;
  s_div : T → T → T;
  s_pow : T → nat → T;
  s_cos : T → T;
  s_sin : T → T;
  s_atan : T → T;
  s_le : T → T → Prop
}.

Declare Scope scalar_scope.
Delimit Scope scalar_scope with S.
Notation "a + b" := (s_add a b) : scalar_scope.
Notation "a - b" := (s_sub a b) : scalar_scope.
Notation "a * b" := (s_mul a b) : scalar_scope.
Notation "a / b" := (s_div a b) : scalar_scope.
Notation "a <= b" := (s_le a b) : scalar_scope.
Notation "# q" := (s_lit q%Q) (at level 9, q at level 9, format "# q") : scalar_scope.

(** The real numbers: the arithmetic the doubles of the source stand for. *)
#[export] Instance R_Scalar : Scalar R := {|
  s_lit := Q2R;
  s_add := Rplus;
  s_sub := Rminus;
  s_mul := Rmult;
  s_div := Rdiv;
  s_pow := pow;
  s_cos := cos;
  s_sin := sin;
  s_atan := atan;
  s_le := Rle
|}.

(** ** Vectors *)

Section Vectors.
Context {A : Type}.

(** [v[i]] as an rvalue. *)
Definition vec_get (v : list A) (i : Z) : option A := v !! Z.to_nat i.

(** [v[i] = a]. *)
Definition vec_set (v : list A) (i : Z) (a : A) : option (list A) :=
  if decide (Z.to_nat i < length v)%nat then Some (<[Z.to_nat i := a]> v) else None.

(** [Dvector v(n)]: [n] elements whose value is not determined until they
    are written; [fill] stands for that content. *)
Definition vec_new (fill : A) (n : Z) : list A := replicate (Z.to_nat n) fill.
End Vectors.

(** ** Loops *)

Section Loops.
Context {St : Type}.

Fixpoint iterate_from (n : nat) (t : Z) (body : Z → St → option St) (s : St)
  : option St :=
  match n with
  | O => Some s
  | S n' => s' ← body t s; iterate_from n' (t + 1) body s'
  end.

(** [for (uint t = lo; t < hi; t++) body], where [hi] is a [size_t].  The
    counter is compared after promotion to [size_t]; when [hi] exceeds
    [UINT_MAX] the counter wraps before it reaches [hi] and the loop has no
    exit, so there is no result. *)
Definition for_uint (lo hi : Z) (body : Z → St → option St) (s : St) : option St :=
  if decide (hi ≤ UINT_MAX)
  then iterate_from (Z.to_nat (hi - to_uint lo)) (to_uint lo) body s
  else None.
End Loops.

(** ** The external solver *)

(** [CppAD::ipopt::solve_result<Dvector>].  [Solve] only compares the status
    with [success]; the other statuses of the library are one value here. *)
Module ipopt.
Inductive status_type := success | not_success.

#[global] Instance status_type_eq_dec : EqDecision status_type.
Proof. solve_decision. Defined.

Record solve_result (T : Type) := {
  status : status_type;
  x : list T;
  obj_value : T
}.
Arguments status {T} _.
Arguments x {T} _.
Arguments obj_value {T} _.
End ipopt.

(** [CppAD::ipopt::solve(options, xi, xl, xu, gl, gu, fg_eval, solution)]:
    the options, the initial point, the bounds of the variables, the bounds
    of the constraints and the evaluator; the result is [solution]. *)
Definition solver (T : Type) : Type :=
  list string → list T → list T → list T → list T → list T →
  (list T → list T → option (list T)) → ipopt.solve_result T.

(** ** The horizon and the layout of the solver vector *)

(** [size_t N = 10; double dt = 0.1; const double Lf = 2.67; double ref_v = 100]. *)
Definition N_default : Z := 10.

Section MPC.
(** The global [N]. *)
Variable N : Z.

Definition idxX : Z := 0.
Definition idxY : Z := idxX ⊕ N.
Definition idxPsi : Z := idxY ⊕ N.
Definition idxV : Z := idxPsi ⊕ N.
Definition idxCTE : Z := idxV ⊕ N.
Definition idxEpsi : Z := idxCTE ⊕ N.
Definition idxDelta : Z := idxEpsi ⊕ N.
Definition idxA : Z := idxDelta ⊕ N ⊖ 1.

Context {T : Type} `{Scalar T}.
Local Open Scope scalar_scope.

Definition dt : T := #0.1.
Definition Lf : T := #2.67.
Definition ref_v : T := #100.

(** ** [FG_eval::operator()] *)

(** [fg[0] += term]. *)
Definition cost_add (fg : list T) (term : T) : option (list T) :=
  c ← vec_get fg 0; vec_set fg 0 (c + term).

(** Lines 56-60. *)
Definition cost_errors (vars : list T) (t : Z) (fg : list T) : option (list T) :=
  cte ← vec_get vars (idxCTE ⊕ t);
  fg ← cost_add fg (#800 * s_pow cte 2);
  epsi ← vec_get vars (idxEpsi ⊕ t);
  fg ← cost_add fg (#800 * s_pow epsi 2);
  v ← vec_get vars (idxV ⊕ t);
  cost_add fg (#1 * s_pow (v - ref_v) 2).

(** Lines 63-67. *)
Definition cost_actuators (vars : list T) (t : Z) (fg : list T) : option (list T) :=
  delta ← vec_get vars (idxDelta ⊕ t);
  v ← vec_get vars (idxV ⊕ t);
  fg ← cost_add fg (#450 * s_pow (delta * v) 2);
  delta ← vec_get vars (idxDelta ⊕ t);
  fg ← cost_add fg (#20 * s_pow delta 2);
  a ← vec_get vars (idxA ⊕ t);
  cost_add fg (#1 * s_pow a 2).

(** Lines 70-73. *)
Definition cost_changes (vars : list T) (t : Z) (fg : list T) : option (list T) :=
  delta1 ← vec_get vars (idxDelta ⊕ t ⊕ 1);
  delta0 ← vec_get vars (idxDelta ⊕ t);
  fg ← cost_add fg (#1 * s_pow (delta1 - delta0) 2);
  a1 ← vec_get vars (idxA ⊕ t ⊕ 1);
  a0 ← vec_get vars (idxA ⊕ t);
  cost_add fg (#1 * s_pow (a1 - a0) 2).

(** Lines 84-89. *)
Definition constraints_init (vars fg : list T) : option (list T) :=
  x ← vec_get vars idxX; fg ← vec_set fg (1 ⊕ idxX) x;
  y ← vec_get vars idxY; fg ← vec_set fg (1 ⊕ idxY) y;
  psi ← vec_get vars idxPsi; fg ← vec_set fg (1 ⊕ idxPsi) psi;
  v ← vec_get vars idxV; fg ← vec_set fg (1 ⊕ idxV) v;
  cte ← vec_get vars idxCTE; fg ← vec_set fg (1 ⊕ idxCTE) cte;
  epsi ← vec_get vars idxEpsi; vec_set fg (1 ⊕ idxEpsi) epsi.

(** Lines 92-127, the body of the loop over [t]. *)
Definition constraints_step (coeffs vars : list T) (t : Z) (fg : list T)
  : option (list T) :=
  x0 ← vec_get vars (idxX ⊕ t ⊖ 1);
  y0 ← vec_get vars (idxY ⊕ t ⊖ 1);
  psi0 ← vec_get vars (idxPsi ⊕ t ⊖ 1);
  v0 ← vec_get vars (idxV ⊕ t ⊖ 1);
  cte0 ← vec_get vars (idxCTE ⊕ t ⊖ 1);
  epsi0 ← vec_get vars (idxEpsi ⊕ t ⊖ 1);
  delta0 ← vec_get vars (idxDelta ⊕ t ⊖ 1);
  a0 ← vec_get vars (idxA ⊕ t ⊖ 1);
  delta0 ← (if decide (t > 1) then vec_get vars (idxDelta ⊕ t ⊖ 2) else Some delta0);
  a0 ← (if decide (t > 1) then vec_get vars (idxA ⊕ t ⊖ 2) else Some a0);
  c0 ← vec_get coeffs 0;
  c1 ← vec_get coeffs 1;
  c2 ← vec_get coeffs 2;
  c3 ← vec_get coeffs 3;
  let f0 := c0 + c1 * x0 + c2 * s_pow x0 2 + c3 * s_pow x0 3 in
  let psides0 := s_atan (c1 + #2 * c2 * x0 + #3 * c3 * s_pow x0 2) in
  x1 ← vec_get vars (idxX ⊕ t);
  y1 ← vec_get vars (idxY ⊕ t);
  psi1 ← vec_get vars (idxPsi ⊕ t);
  v1 ← vec_get vars (idxV ⊕ t);
  cte1 ← vec_get vars (idxCTE ⊕ t);
  epsi1 ← vec_get vars (idxEpsi ⊕ t);
  fg ← vec_set fg (1 ⊕ idxX ⊕ t) (x1 - (x0 + v0 * s_cos psi0 * dt));
  fg ← vec_set fg (1 ⊕ idxY ⊕ t) (y1 - (y0 + v0 * s_sin psi0 * dt));
  fg ← vec_set fg (1 ⊕ idxPsi ⊕ t) (psi1 - (psi0 - v0 / Lf * delta0 * dt));
  fg ← vec_set fg (1 ⊕ idxV ⊕ t) (v1 - (v0 + a0 * dt));
  fg ← vec_set fg (1 ⊕ idxCTE ⊕ t) (cte1 - ((f0 - y0) + (v0 * s_sin epsi0 * dt)));
  vec_set fg (1 ⊕ idxEpsi ⊕ t) (epsi1 - ((psi0 - psides0) - v0 / Lf * delta0 * dt)).

(** [void operator()(ADvector& fg, const ADvector& vars)]: the new content
    of [fg]. *)
Definition FG_eval (coeffs fg vars : list T) : option (list T) :=
  fg ← vec_set fg 0 (#0);
  fg ← for_uint 0 N (cost_errors vars) fg;
  fg ← for_uint 0 (N ⊖ 1) (cost_actuators vars) fg;
  fg ← for_uint 0 (N ⊖ 2) (cost_changes vars) fg;
  fg ← constraints_init vars fg;
  for_uint 1 N (constraints_step coeffs vars) fg.

(** ** [MPC::Solve] *)

Definition n_vars : Z := N ⊗ 6 ⊕ (N ⊖ 1) ⊗ 2.
Definition n_constraints : Z := N ⊗ 6.

(** The five vectors [Solve] hands to the solver. *)
Record problem := {
  vars : list T;
  vars_lowerbound : list T;
  vars_upperbound : list T;
  constraints_lowerbound : list T;
  constraints_upperbound : list T
}.

(** [lower[i] = lo; upper[i] = hi]. *)
Definition set_bounds (lo hi : T) (i : Z) (b : list T * list T)
  : option (list T * list T) :=
  lower ← vec_set b.1 i lo;
  upper ← vec_set b.2 i hi;
  Some (lower, upper).

(** Lines 143-214: the initial point and the bounds.  [fill] is the content
    of a vector that has not been written yet. *)
Definition Solve_setup (fill : T) (state : list T) : option problem :=
  x ← vec_get state 0;
  y ← vec_get state 1;
  psi ← vec_get state 2;
  v ← vec_get state 3;
  cte ← vec_get state 4;
  epsi ← vec_get state 5;
  vars ← for_uint 0 n_vars (λ i vars, vec_set vars i (#0)) (vec_new fill n_vars);
  vars ← vec_set vars idxX x;
  vars ← vec_set vars idxY y;
  vars ← vec_set vars idxPsi psi;
  vars ← vec_set vars idxV v;
  vars ← vec_set vars idxCTE cte;
  vars ← vec_set vars idxEpsi epsi;
  b ← for_uint 0 idxDelta (set_bounds (#(-1e23)) (#1e23))
        (vec_new fill n_vars, vec_new fill n_vars);
  b ← for_uint idxDelta idxA (set_bounds (#(-0.436332)) (#0.436332)) b;
  b ← for_uint idxA n_vars (set_bounds (#(-1.0)) (#1.0)) b;
  c ← for_uint 0 n_constraints (set_bounds (#0) (#0))
        (vec_new fill n_constraints, vec_new fill n_constraints);
  lower ← vec_set c.1 idxX x;
  lower ← vec_set lower idxY y;
  lower ← vec_set lower idxPsi psi;
  lower ← vec_set lower idxV v;
  lower ← vec_set lower idxCTE cte;
  lower ← vec_set lower idxEpsi epsi;
  upper ← vec_set c.2 idxX x;
  upper ← vec_set upper idxY y;
  upper ← vec_set upper idxPsi psi;
  upper ← vec_set upper idxV v;
  upper ← vec_set upper idxCTE cte;
  upper ← vec_set upper idxEpsi epsi;
  Some {| vars := vars;
          vars_lowerbound := b.1; vars_upperbound := b.2;
          constraints_lowerbound := lower; constraints_upperbound := upper |}.

(** Lines 223-235. *)
Definition options : list string :=
  [ "Integer print_level  0"; "Sparse  true        forward";
    "Sparse  true        reverse"; "Numeric max_cpu_time          0.5" ]%string.

(** Lines 261-264, the body of the loop over [t]. *)
Definition push_point (sol_x : list T) (t : Z) (return_val : list T)
  : option (list T) :=
  px ← vec_get sol_x (idxX ⊕ t ⊕ 1);
  py ← vec_get sol_x (idxY ⊕ t ⊕ 1);
  Some (return_val ++ [px] ++ [py]).

(** Lines 246-266: [ok] and [cost] are computed, [cost] is printed, and
    neither takes part in the value returned. *)
Definition Solve_extract (solution : ipopt.solve_result T) : option (list T) :=
  let ok := true && bool_decide (ipopt.status solution = ipopt.success) in
  let cost := ipopt.obj_value solution in
  delta ← vec_get (ipopt.x solution) idxDelta;
  a ← vec_get (ipopt.x solution) idxA;
  for_uint 0 (N ⊖ 1) (push_point (ipopt.x solution)) ([] ++ [delta] ++ [a]).

(** [vector<double> MPC::Solve(Eigen::VectorXd state, Eigen::VectorXd coeffs)]. *)
Definition Solve (ipopt_solve : solver T) (fill : T) (state coeffs : list T)
  : option (list T) :=
  p ← Solve_setup fill state;
  Solve_extract
    (ipopt_solve options (vars p) (vars_lowerbound p) (vars_upperbound p)
       (constraints_lowerbound p) (constraints_upperbound p) (FG_eval coeffs)).

End MPC.

(** ** [MPC::MPC()] *)

(** The class has no state of its own. *)
Record MPC := Build_MPC {}.

(** Modelled from the spec: the error kinds of its section 7; the source
    declares no error type and has no [throw]. *)
Inductive error_kind := ConfigurationError | ConvergenceFailure | NumericAnomaly.

(** How a call ends. *)
Inductive outcome (A : Type) :=
  | returns (a : A)
  | raises (e : error_kind).
Arguments returns {A} _.
Arguments raises {A} _.

(** [MPC::MPC() {}].  The constructor has no parameter and reads no global;
    [N] is the value of the global [N] when the object is built. *)
Definition MPC_new (N : Z) : outcome MPC := returns Build_MPC.

(** ** Vocabulary of the statements *)

(** The horizons for which no index or counter of the source wraps around:
    at least two steps, and a number of variables that a [uint] counter can
    reach. *)
Definition valid_horizon (N : Z) : Prop :=
  2 ≤ N ∧ 6 * N + 2 * (N - 1) ≤ UINT_MAX.

(** The six state blocks of the solver vector. *)
Inductive block := x_block | y_block | psi_block | v_block | cte_block | epsi_block.

Definition blocks : list block :=
  [x_block; y_block; psi_block; v_block; cte_block; epsi_block].

Section Statements.
Variable N : Z.
Context {T : Type} `{Scalar T}.
Local Open Scope scalar_scope.

(** Where a block starts. *)
Definition idx (b : block) : Z :=
  match b with
  | x_block => idxX
  | y_block => idxY N
  | psi_block => idxPsi N
  | v_block => idxV N
  | cte_block => idxCTE N
  | epsi_block => idxEpsi N
  end.

(** [v[i]] for an index inside [v]. *)
Definition at_index (v : list T) (i : Z) : T := default (#0) (vec_get v i).

(** The state variable of a block at a timestep, the steering and the
    acceleration at an actuator index. *)
Definition variable (vars : list T) (b : block) (t : Z) : T := at_index vars (idx b + t).
Definition steering (vars : list T) (k : Z) : T := at_index vars (idxDelta N + k).
Definition acceleration (vars : list T) (k : Z) : T := at_index vars (idxA N + k).

(** The entry of the constraint vector for a block and a timestep: [fg]
    holds the cost first. *)
Definition constraint (fg : list T) (b : block) (t : Z) : option T :=
  vec_get fg (1 + (idx b + t)).

(** A vector after one entry per block has been written: the entries of
    timestep [t], in a vector where the blocks start [off] places later. *)
Definition store_blocks (off t : Z) (f : block → T) (v : list T) : list T :=
  foldl (λ v b, <[Z.to_nat (off + (idx b + t)) := f b]> v) v blocks.

(** The component of a six-element state vector for a block. *)
Definition state_of (state : list T) (b : block) : T :=
  at_index state
    match b with
    | x_block => 0 | y_block => 1 | psi_block => 2
    | v_block => 3 | cte_block => 4 | epsi_block => 5
    end%Z.

(** *** The model of the spec *)

(** The reference path, a cubic with its coefficients in ascending powers,
    and the heading of its tangent. *)
Definition evaluate_spec (coeffs : list T) (x : T) : T :=
  at_index coeffs 0 + at_index coeffs 1 * x + at_index coeffs 2 * s_pow x 2
  + at_index coeffs 3 * s_pow x 3.

Definition desiredHeading_spec (coeffs : list T) (x : T) : T :=
  s_atan (at_index coeffs 1 + #2 * at_index coeffs 2 * x
          + #3 * at_index coeffs 3 * s_pow x 2).

(** The discrete kinematic bicycle model of the spec: the next value of a
    block from the state [s] and the actuator pair [(delta, a)]. *)
Definition bicycle_spec (coeffs : list T) (s : block → T) (delta a : T) (b : block) : T :=
  match b with
  | x_block => s x_block + s v_block * s_cos (s psi_block) * dt
  | y_block => s y_block + s v_block * s_sin (s psi_block) * dt
  | psi_block => s psi_block - s v_block / Lf * delta * dt
  | v_block => s v_block + a * dt
  | cte_block =>
      (evaluate_spec coeffs (s x_block) - s y_block)
      + s v_block * s_sin (s epsi_block) * dt
  | epsi_block =>
      (s psi_block - desiredHeading_spec coeffs (s x_block))
      - s v_block / Lf * delta * dt
  end.

(** The latency rule of the spec: the actuator index the dynamics of
    timestep [t] use. *)
Definition actuator_index_spec (t : Z) : Z := if decide (t = 1) then 0 else t - 2.

(** The value the model predicts for a block at timestep [t], from the
    variables of timestep [t - 1]. *)
Definition predicted_value (coeffs vars : list T) (b : block) (t : Z) : T :=
  bicycle_spec coeffs (λ b', variable vars b' (t - 1))
    (steering vars (actuator_index_spec t))
    (acceleration vars (actuator_index_spec t)) b.

(** The terms of the cost of the spec, with the weights of the source. *)
Definition tracking_terms (vars : list T) (t : Z) : list T :=
  [ #800 * s_pow (variable vars cte_block t) 2;
    #800 * s_pow (variable vars epsi_block t) 2;
    #1 * s_pow (variable vars v_block t - ref_v) 2 ].

Definition effort_terms (vars : list T) (t : Z) : list T :=
  [ #450 * s_pow (steering vars t * variable vars v_block t) 2;
    #20 * s_pow (steering vars t) 2;
    #1 * s_pow (acceleration vars t) 2 ].

Definition smoothness_terms (vars : list T) (t : Z) : list T :=
  [ #1 * s_pow (steering vars (t + 1) - steering vars t) 2;
    #1 * s_pow (acceleration vars (t + 1) - acceleration vars t) 2 ].

Definition cost_terms_spec (vars : list T) : list T :=
  flat_map (tracking_terms vars) (seqZ 0 N)
  ++ flat_map (effort_terms vars) (seqZ 0 (N - 1))
  ++ flat_map (smoothness_terms vars) (seqZ 0 (N - 2)).

(** The sum of the terms, in the order above. *)
Definition cost_spec (vars : list T) : T := foldl s_add (#0) (cost_terms_spec vars).

(** The predicted positions [(x1, y1), (x2, y2), ...] of a solution. *)
Definition predicted_path (sol_x : list T) : list T :=
  flat_map (λ t, [variable sol_x x_block t; variable sol_x y_block t]) (seqZ 1 (N - 1)).

(** Every entry of [v] lies between the entries of [lower] and [upper]. *)
Definition within_bounds (lower upper v : list T) : Prop :=
  ∀ i lo hi a, lower !! i = Some lo → upper !! i = Some hi → v !! i = Some a →
    lo <= a ∧ a <= hi.

(** The constraint entries of [fg] (those after the cost) respect the
    constraint bounds of the problem [p]. *)
Definition feasible (p : problem) (fg : list T) : Prop :=
  within_bounds (constraints_lowerbound p) (constraints_upperbound p) (tail fg).

(** [sv] with the status of every result replaced by [success]. *)
Definition with_status_success (sv : solver T) : solver T :=
  λ opts xi xl xu gl gu fg,
    let s := sv opts xi xl xu gl gu fg in
    {| ipopt.status := ipopt.success; ipopt.x := ipopt.x s;
       ipopt.obj_value := ipopt.obj_value s |}.

(** The result of the solver call of [Solve] on the problem [p]. *)
Definition solve_call (sv : solver T) (coeffs : list T) (p : problem) : ipopt.solve_result T :=
  sv options (vars p) (vars_lowerbound p) (vars_upperbound p)
    (constraints_lowerbound p) (constraints_upperbound p) (FG_eval N coeffs).

End Statements.

(** ** Concrete runs, over the real numbers *)

Module Sample.
Local Open Scope R_scope.

(** The path [y = 0.5 + 0.1 x] and the state of a car one unit off a path,
    at speed 50. *)
Definition coeffs : list R := [0.5; 0.1; 0; 0].
Definition state : list R := [0; 1; 0; 50; 1; 0].

(** A car at rest on the path [y = 0]. *)
Definition flat_path : list R := [0; 0; 0; 0].
Definition at_rest : list R := [0; 0; 0; 0; 0; 0].

(** A car standing one unit beside the path [y = 0], and the trajectory of
    the model from there with the actuators at 0: the car stays where it
    is, [y(t) = 1], and the model gives [cte(t) = f - y = -1] after the
    first timestep. *)
Definition off_path : list R := [0; 1; 0; 0; 1; 0].
Definition parked : list R :=
  replicate 10 0 ++ replicate 10 1 ++ replicate 10 0 ++ replicate 10 0
  ++ [1] ++ replicate 9 (-1) ++ replicate 10 0
  ++ replicate 9 0 ++ replicate 9 0.

(** A vector for [fg], and three variable vectors for the default horizon:
    all zero; the initial point of [state], with [y(0) = 1], [v(0) = 50] and
    [cte(0) = 1]; all zero but [x(1) = 1]. *)
Definition fg : list R := replicate 61 0.
Definition zeros : list R := replicate 78 0.
Definition initial_point : list R :=
  <[40%nat := 1]> (<[30%nat := 50]> (<[10%nat := 1]> zeros)).
Definition x1_is_1 : list R := <[1%nat := 1]> zeros.

(** All zero but the last actuator pair, [delta(8) = 1] and [a(8) = 1]. *)
Definition last_pair_is_1 : list R := <[77%nat := 1]> (<[68%nat := 1]> zeros).

(** A solver that gives up at once: it reports a failure and leaves the
    initial point as its result. *)
Definition stalled : solver R :=
  λ _ xi _ _ _ _ _,
    {| ipopt.status := ipopt.not_success; ipopt.x := xi; ipopt.obj_value := 0 |}.

(** A solver that reports success at the origin. *)
Definition at_origin : solver R :=
  λ _ xi _ _ _ _ _,
    {| ipopt.status := ipopt.success; ipopt.x := replicate (length xi) 0;
       ipopt.obj_value := 0 |}.
End Sample.

(** * Properties *)

(** The layout and the loops are reasoned about through their lemmas, never
    by unfolding the modular arithmetic. *)
Arguments to_size_t : simpl never.
Arguments to_uint : simpl never.
Arguments size_add : simpl never.
Arguments size_sub : simpl never.
Arguments size_mul : simpl never.
Arguments idxX : simpl never.
Arguments idxY : simpl never.
Arguments idxPsi : simpl never.
Arguments idxV : simpl never.
Arguments idxCTE : simpl never.
Arguments idxEpsi : simpl never.
Arguments idxDelta : simpl never.
Arguments idxA : simpl never.
Arguments n_vars : simpl never.
Arguments n_constraints : simpl never.
Arguments vec_new : simpl never.
Arguments for_uint : simpl never.
Arguments UINT_MAX : simpl never.

(** ** Machine integers and vectors *)

Lemma to_size_t_small z : 0 ≤ z < 2 ^ 64 → to_size_t z = z.
Proof. intros Hz. unfold to_size_t, SIZE_WIDTH. apply Z.mod_small, Hz. Qed.

Lemma size_add_small a b : 0 ≤ a + b < 2 ^ 64 → a ⊕ b = a + b.
Proof. apply to_size_t_small. Qed.

Lemma size_sub_small a b : 0 ≤ a - b < 2 ^ 64 → a ⊖ b = a - b.
Proof. apply to_size_t_small. Qed.

Lemma size_mul_small a b : 0 ≤ a * b < 2 ^ 64 → a ⊗ b = a * b.
Proof. apply to_size_t_small. Qed.

Lemma to_uint_small z : 0 ≤ z ≤ UINT_MAX → to_uint z = z.
Proof. unfold to_uint, UINT_MAX. intros Hz. apply Z.mod_small. lia. Qed.

(** The first step of a sequence that succeeds. *)
Lemma option_bind_Some_l {A B} (a : A) (f : A → option B) : Some a ≫= f = f a.
Proof. reflexivity. Qed.

Section VectorFacts.
Context {A : Type}.
Implicit Types (v : list A) (i : Z) (a : A).

Lemma vec_set_Some v i a :
  (Z.to_nat i < length v)%nat → vec_set v i a = Some (<[Z.to_nat i := a]> v).
Proof. intros Hi. unfold vec_set. by rewrite decide_True. Qed.

Lemma bind_vec_set {B} v i a (f : list A → option B) :
  (Z.to_nat i < length v)%nat → vec_set v i a ≫= f = f (<[Z.to_nat i := a]> v).
Proof. intros Hi. by rewrite vec_set_Some. Qed.

Lemma vec_set_length v i a v' : vec_set v i a = Some v' → length v' = length v.
Proof.
  unfold vec_set. case_decide; [|done].
  intros [= <-]. apply length_insert.
Qed.

Lemma vec_get_new (fill : A) n i :
  0 ≤ i < n → vec_get (vec_new fill n) i = Some fill.
Proof. intros Hi. apply lookup_replicate_2. lia. Qed.

Lemma vec_new_length (fill : A) n : 0 ≤ n → Z.of_nat (length (vec_new fill n)) = n.
Proof. intros Hn. unfold vec_new. rewrite length_replicate. lia. Qed.
End VectorFacts.

(** ** Loops *)

Section LoopFacts.
Context {St : Type}.
Implicit Types (body : Z → St → option St) (s : St).

Lemma iterate_from_S n t body s :
  iterate_from (S n) t body s = body t s ≫= iterate_from n (t + 1) body.
Proof. reflexivity. Qed.

Lemma for_uint_iterate lo hi body s :
  0 ≤ lo ≤ UINT_MAX → hi ≤ UINT_MAX →
  for_uint lo hi body s = iterate_from (Z.to_nat (hi - lo)) lo body s.
Proof.
  intros Hlo Hhi. unfold for_uint.
  rewrite decide_True by done. by rewrite to_uint_small.
Qed.

(** A loop whose bound fits a [uint] runs its body on [lo], [lo + 1], ...
    and ends; an invariant of the body holds at the end. *)
Lemma iterate_from_invariant (I : Z → St → Prop) n t0 body s :
  I t0 s →
  (∀ t s, t0 ≤ t < t0 + Z.of_nat n → I t s → ∃ s', body t s = Some s' ∧ I (t + 1) s') →
  ∃ s', iterate_from n t0 body s = Some s' ∧ I (t0 + Z.of_nat n) s'.
Proof.
  revert t0 s. induction n as [|n IH]; intros t0 s Hs Hbody.
  - exists s. split; [done|]. by replace (t0 + Z.of_nat 0) with t0 by lia.
  - destruct (Hbody t0 s) as (s1 & Hs1 & HI1); [lia|done|].
    destruct (IH (t0 + 1) s1) as (s2 & Hs2 & HI2); [done| |].
    + intros t s' Ht. apply Hbody. lia.
    + exists s2. split.
      * simpl. rewrite Hs1. simpl. exact Hs2.
      * by replace (t0 + Z.of_nat (S n)) with (t0 + 1 + Z.of_nat n) by lia.
Qed.

Lemma for_uint_invariant (I : Z → St → Prop) lo hi body s :
  0 ≤ lo ≤ hi → hi ≤ UINT_MAX →
  I lo s →
  (∀ t s, lo ≤ t < hi → I t s → ∃ s', body t s = Some s' ∧ I (t + 1) s') →
  ∃ s', for_uint lo hi body s = Some s' ∧ I hi s'.
Proof.
  intros Hlo Hhi Hs Hbody.
  rewrite for_uint_iterate by lia.
  destruct (iterate_from_invariant I (Z.to_nat (hi - lo)) lo body s)
    as (s' & Hs' & HI); [done| |].
  - intros t s0 Ht. apply Hbody. lia.
  - exists s'. split; [done|].
    by replace (lo + Z.of_nat (Z.to_nat (hi - lo))) with hi in HI by lia.
Qed.
End LoopFacts.

(** ** The layout *)

Section Layout.
Variable N : Z.
Hypothesis HN : valid_horizon N.

Lemma horizon_bounds : 2 ≤ N ∧ 8 * N ≤ 2 ^ 32 + 1.
Proof. destruct HN as [H2 Hmax]. unfold UINT_MAX in Hmax. lia. Qed.

(** Without wrap-around the blocks are contiguous: six of length [N], then
    two of length [N - 1]. *)
Lemma layout :
  idxX = 0 ∧ idxY N = N ∧ idxPsi N = 2 * N ∧ idxV N = 3 * N ∧
  idxCTE N = 4 * N ∧ idxEpsi N = 5 * N ∧ idxDelta N = 6 * N ∧
  idxA N = 7 * N - 1 ∧ n_vars N = 8 * N - 2 ∧ n_constraints N = 6 * N.
Proof.
  pose proof horizon_bounds as [H2 H8].
  assert (HY : idxY N = N).
  { unfold idxY, idxX. rewrite size_add_small; lia. }
  assert (HPsi : idxPsi N = 2 * N).
  { unfold idxPsi. rewrite HY, size_add_small; lia. }
  assert (HV : idxV N = 3 * N).
  { unfold idxV. rewrite HPsi, size_add_small; lia. }
  assert (HCTE : idxCTE N = 4 * N).
  { unfold idxCTE. rewrite HV, size_add_small; lia. }
  assert (HEpsi : idxEpsi N = 5 * N).
  { unfold idxEpsi. rewrite HCTE, size_add_small; lia. }
  assert (HDelta : idxDelta N = 6 * N).
  { unfold idxDelta. rewrite HEpsi, size_add_small; lia. }
  assert (HA : idxA N = 7 * N - 1).
  { unfold idxA. rewrite HDelta, size_add_small, size_sub_small; lia. }
  repeat split; try done.
  - unfold n_vars.
    rewrite (size_sub_small N 1), (size_mul_small N 6), (size_mul_small (N - 1) 2),
      size_add_small; lia.
  - unfold n_constraints. rewrite size_mul_small; lia.
Qed.

End Layout.

(** [idx_lia] proves an equation or an inequality between indices of a valid
    horizon; [wrap_lia] does so when the wrapping operations are present. *)
Ltac use_layout :=
  match goal with
  | HN : valid_horizon ?N |- _ =>
      let H := fresh in
      pose proof (layout N HN) as H;
      pose proof (horizon_bounds N HN);
      destruct H as (?&?&?&?&?&?&?&?&?&?)
  end.

Ltac idx_lia := use_layout; unfold idx, UINT_MAX in *; simpl length in *; lia.

Ltac wrap_lia :=
  use_layout;
  unfold idx, size_add, size_sub, size_mul, to_size_t, SIZE_WIDTH, UINT_MAX in *;
  simpl length in *; Z.div_mod_to_equations; lia.

(** Indices written with the wrapping operations, as sums. *)
Ltac unwrap :=
  repeat match goal with
  | |- context [?a ⊕ ?t ⊖ ?k] => replace (a ⊕ t ⊖ k) with (a + (t - k)) by wrap_lia
  | |- context [?a ⊕ ?t ⊕ ?k] => replace (a ⊕ t ⊕ k) with (a + (t + k)) by wrap_lia
  | |- context [?a ⊕ ?t] => replace (a ⊕ t) with (a + t) by wrap_lia
  | |- context [?a ⊖ ?k] => replace (a ⊖ k) with (a - k) by wrap_lia
  end.

(** ** The evaluator *)

Section Evaluator.
Variable N : Z.
Context {T : Type} `{Scalar T}.
Hypothesis HN : valid_horizon N.
Local Open Scope scalar_scope.

Lemma vec_get_at (v : list T) i :
  (0 ≤ i < Z.of_nat (length v))%Z → vec_get v i = Some (at_index v i).
Proof.
  intros Hi. unfold at_index, vec_get.
  destruct (v !! Z.to_nat i) eqn:E; [done|].
  apply lookup_ge_None in E. lia.
Qed.

Lemma cost_add_cons c (g : list T) term : cost_add (c :: g) term = Some ((c + term) :: g).
Proof. reflexivity. Qed.

(** A loop that only adds terms to the cost adds them in the order of the
    timesteps. *)
Lemma for_uint_cost hi body (terms : Z → list T) c g :
  (0 ≤ hi ≤ UINT_MAX)%Z →
  (∀ t c', (0 ≤ t < hi)%Z → body t (c' :: g) = Some (foldl s_add c' (terms t) :: g)) →
  for_uint 0 hi body (c :: g)
  = Some (foldl s_add c (flat_map terms (seqZ 0 hi)) :: g).
Proof.
  intros Hhi Hbody. rewrite for_uint_iterate by (unfold UINT_MAX in *; lia).
  replace (hi - 0)%Z with hi by lia.
  replace hi with (Z.of_nat (Z.to_nat hi)) at 2 by lia.
  assert (Hb : ∀ t c', (0 ≤ t < 0 + Z.of_nat (Z.to_nat hi))%Z →
    body t (c' :: g) = Some (foldl s_add c' (terms t) :: g)).
  { intros t c' Ht. apply Hbody. lia. }
  clear Hbody Hhi. revert c Hb. generalize 0%Z as t0.
  induction (Z.to_nat hi) as [|n IH]; intros t0 c Hb; [done|].
  rewrite seqZ_cons by lia. simpl iterate_from. rewrite Hb by lia. simpl.
  rewrite foldl_app.
  replace (Z.pred (Z.of_nat (S n))) with (Z.of_nat n) by lia.
  apply IH. intros t c' Ht. apply Hb. lia.
Qed.

Lemma store_blocks_length off t (f : block → T) (v : list T) :
  length (store_blocks N off t f v) = length v.
Proof. unfold store_blocks. simpl. by rewrite !length_insert. Qed.

Lemma store_blocks_same off t (f : block → T) (v : list T) b :
  (0 ≤ off)%Z → (off + n_constraints N ≤ Z.of_nat (length v))%Z → (0 ≤ t < N)%Z →
  vec_get (store_blocks N off t f v) (off + (idx N b + t)) = Some (f b).
Proof.
  intros Hoff Hv Ht. unfold vec_get, store_blocks. simpl.
  destruct b;
    repeat first
      [ rewrite list_lookup_insert_ne by idx_lia
      | rewrite list_lookup_insert_eq by (rewrite ?length_insert; idx_lia) ];
    done.
Qed.

Lemma store_blocks_other off t (f : block → T) (v : list T) i :
  (∀ b, i ≠ off + (idx N b + t))%Z → (0 ≤ off)%Z → (0 ≤ t)%Z → (0 ≤ i)%Z →
  vec_get (store_blocks N off t f v) i = vec_get v i.
Proof.
  intros Hi Hoff Ht Hi0. unfold vec_get, store_blocks. simpl.
  pose proof (Hi x_block). pose proof (Hi y_block). pose proof (Hi psi_block).
  pose proof (Hi v_block). pose proof (Hi cte_block). pose proof (Hi epsi_block).
  by rewrite !list_lookup_insert_ne by idx_lia.
Qed.

Lemma store_blocks_other_step off t (f : block → T) (v : list T) b t' :
  (0 ≤ off)%Z → (0 ≤ t < N)%Z → (0 ≤ t' < N)%Z → t' ≠ t →
  vec_get (store_blocks N off t f v) (off + (idx N b + t')) = vec_get v (off + (idx N b + t')).
Proof.
  intros Hoff Ht Ht' Hne.
  destruct b; (apply store_blocks_other; [|lia|lia|idx_lia]);
    intros b'; destruct b'; idx_lia.
Qed.

Variables coeffs vars : list T.
Hypothesis Hvars : Z.of_nat (length vars) = n_vars N.
Hypothesis Hcoeffs : (4 ≤ length coeffs)%nat.

Ltac reads := repeat (rewrite vec_get_at by idx_lia; simpl).

Lemma cost_errors_cons t c g :
  (0 ≤ t < N)%Z →
  cost_errors N vars t (c :: g) = Some (foldl s_add c (tracking_terms N vars t) :: g).
Proof. intros Ht. unfold cost_errors. unwrap. by reads. Qed.

Lemma cost_actuators_cons t c g :
  (0 ≤ t < N - 1)%Z →
  cost_actuators N vars t (c :: g) = Some (foldl s_add c (effort_terms N vars t) :: g).
Proof. intros Ht. unfold cost_actuators. unwrap. by reads. Qed.

Lemma cost_changes_cons t c g :
  (0 ≤ t < N - 2)%Z →
  cost_changes N vars t (c :: g) = Some (foldl s_add c (smoothness_terms N vars t) :: g).
Proof. intros Ht. unfold cost_changes. unwrap. by reads. Qed.

Lemma constraints_init_eq (fg : list T) :
  Z.of_nat (length fg) = (1 + n_constraints N)%Z →
  constraints_init N vars fg = Some (store_blocks N 1 0 (λ b, variable N vars b 0) fg).
Proof.
  intros Hfg. unfold constraints_init. unwrap.
  reads. repeat (rewrite vec_set_Some by (rewrite ?length_insert; idx_lia); simpl).
  unfold store_blocks, variable. simpl. by rewrite !Z.add_0_r.
Qed.

Lemma constraints_step_eq (fg : list T) t :
  Z.of_nat (length fg) = (1 + n_constraints N)%Z → (1 ≤ t < N)%Z →
  constraints_step N coeffs vars t fg
  = Some (store_blocks N 1 t
            (λ b, variable N vars b t - predicted_value N coeffs vars b t) fg).
Proof.
  intros Hfg Ht. unfold constraints_step. unwrap.
  destruct (decide (t > 1)%Z) as [Hgt|Hle].
  - reads. repeat (rewrite vec_set_Some by (rewrite ?length_insert; idx_lia); simpl).
    unfold store_blocks, predicted_value, actuator_index_spec. simpl.
    by rewrite decide_False by lia.
  - assert (t = 1) as -> by lia.
    reads. repeat (rewrite vec_set_Some by (rewrite ?length_insert; idx_lia); simpl).
    done.
Qed.

(** What the evaluator leaves in [fg]: the cost, the six variables of
    timestep 0, and for the later timesteps the variable minus the value the
    model predicts for it. *)
Lemma FG_eval_result (fg : list T) :
  Z.of_nat (length fg) = (1 + n_constraints N)%Z →
  ∃ fg', FG_eval N coeffs fg vars = Some fg'
    ∧ length fg' = length fg
    ∧ vec_get fg' 0 = Some (cost_spec N vars)
    ∧ (∀ b, constraint N fg' b 0 = Some (variable N vars b 0))
    ∧ (∀ b t, (1 ≤ t < N)%Z →
         constraint N fg' b t
         = Some (variable N vars b t - predicted_value N coeffs vars b t)).
Proof.
  intros Hfg. unfold FG_eval.
  destruct fg as [|c0 g]; [simpl in Hfg; idx_lia|].
  change (vec_set (c0 :: g) 0 (#0)) with (Some (#0 :: g)). simpl mbind.
  rewrite (for_uint_cost N _ (tracking_terms N vars)) by
    (first [idx_lia | intros; by apply cost_errors_cons]).
  simpl mbind. unwrap.
  rewrite (for_uint_cost (N - 1) _ (effort_terms N vars)) by
    (first [idx_lia | intros; by apply cost_actuators_cons]).
  simpl mbind.
  rewrite (for_uint_cost (N - 2) _ (smoothness_terms N vars)) by
    (first [idx_lia | intros; by apply cost_changes_cons]).
  simpl mbind. rewrite <- !foldl_app.
  fold (cost_terms_spec N vars). fold (cost_spec N vars).
  rewrite constraints_init_eq by done. simpl mbind.
  set (fg0 := store_blocks N 1 0 _ _).
  destruct (for_uint_invariant
    (λ t fg', length fg' = length (c0 :: g)
       ∧ vec_get fg' 0 = Some (cost_spec N vars)
       ∧ (∀ b, constraint N fg' b 0 = Some (variable N vars b 0))
       ∧ (∀ b t', (1 ≤ t' < t)%Z →
            constraint N fg' b t'
            = Some (variable N vars b t' - predicted_value N coeffs vars b t')))
    1%Z N (constraints_step N coeffs vars) fg0) as (fg' & Hrun & Hinv).
  - idx_lia.
  - idx_lia.
  - subst fg0. repeat split.
    + by rewrite store_blocks_length.
    + rewrite store_blocks_other; [done| |lia..]. intros b. destruct b; idx_lia.
    + intros b. apply store_blocks_same; idx_lia.
    + intros b t' Ht'. lia.
  - intros t fg1 Ht (Hlen & Hcost & Hinit & Hprev).
    rewrite constraints_step_eq by (rewrite ?Hlen; done).
    eexists. split; [done|]. repeat split.
    + by rewrite store_blocks_length.
    + rewrite store_blocks_other; [done| |lia..]. intros b. destruct b; idx_lia.
    + intros b. unfold constraint.
      rewrite store_blocks_other_step by idx_lia. apply Hinit.
    + intros b t' Ht'. unfold constraint. destruct (decide (t' = t)) as [->|Hne].
      * apply store_blocks_same; [lia|rewrite Hlen; idx_lia|lia].
      * rewrite store_blocks_other_step by lia. apply Hprev. lia.
  - exists fg'. split; [done|]. tauto.
Qed.

End Evaluator.

(** ** The controller *)

Section Controller.
Variable N : Z.
Context {T : Type} `{Scalar T}.
Hypothesis HN : valid_horizon N.
Local Open Scope scalar_scope.

Lemma vec_get_insert (v : list T) i a j :
  (0 ≤ i < Z.of_nat (length v))%Z → (0 ≤ j)%Z →
  vec_get (<[Z.to_nat i := a]> v) j = if decide (j = i) then Some a else vec_get v j.
Proof.
  intros Hi Hj. unfold vec_get. case_decide as Hij.
  - subst j. apply list_lookup_insert_eq. lia.
  - apply list_lookup_insert_ne. lia.
Qed.

(** [for (uint i = lo; i < hi; i++) v[i] = a]. *)
Lemma fill_loop lo hi (a : T) (v : list T) :
  (0 ≤ lo ≤ hi)%Z → (hi ≤ UINT_MAX)%Z → (hi ≤ Z.of_nat (length v))%Z →
  ∃ v', for_uint lo hi (λ i v, vec_set v i a) v = Some v'
    ∧ length v' = length v
    ∧ (∀ i, (lo ≤ i < hi)%Z → vec_get v' i = Some a)
    ∧ (∀ i, (0 ≤ i)%Z → ¬ (lo ≤ i < hi)%Z → vec_get v' i = vec_get v i).
Proof.
  intros Hlo Hhi Hlen.
  destruct (for_uint_invariant
    (λ t v', length v' = length v
       ∧ (∀ i, (lo ≤ i < t)%Z → vec_get v' i = Some a)
       ∧ (∀ i, (0 ≤ i)%Z → ¬ (lo ≤ i < t)%Z → vec_get v' i = vec_get v i))
    lo hi (λ i v, vec_set v i a) v) as (v' & Hrun & Hinv); [done|done| | |by eauto].
  - split; [done|]. split; [intros; lia|done].
  - intros t w Ht (Hw & Hin & Hout).
    rewrite vec_set_Some by lia. eexists. split; [done|].
    rewrite length_insert. split; [done|]. split.
    + intros i Hi. rewrite vec_get_insert by lia.
      case_decide; [done|]. apply Hin. lia.
    + intros i Hi0 Hi. rewrite vec_get_insert by lia.
      case_decide; [lia|]. apply Hout; lia.
Qed.

(** [for (uint i = lo; i < hi; i++) { lower[i] = l; upper[i] = u; }]. *)
Lemma set_bounds_loop lo hi (l u : T) (b : list T * list T) :
  (0 ≤ lo ≤ hi)%Z → (hi ≤ UINT_MAX)%Z →
  (hi ≤ Z.of_nat (length b.1))%Z → (hi ≤ Z.of_nat (length b.2))%Z →
  ∃ b', for_uint lo hi (set_bounds l u) b = Some b'
    ∧ length b'.1 = length b.1 ∧ length b'.2 = length b.2
    ∧ (∀ i, (lo ≤ i < hi)%Z → vec_get b'.1 i = Some l ∧ vec_get b'.2 i = Some u)
    ∧ (∀ i, (0 ≤ i)%Z → ¬ (lo ≤ i < hi)%Z →
         vec_get b'.1 i = vec_get b.1 i ∧ vec_get b'.2 i = vec_get b.2 i).
Proof.
  intros Hlo Hhi Hlen1 Hlen2.
  destruct (for_uint_invariant
    (λ t b', length b'.1 = length b.1 ∧ length b'.2 = length b.2
       ∧ (∀ i, (lo ≤ i < t)%Z → vec_get b'.1 i = Some l ∧ vec_get b'.2 i = Some u)
       ∧ (∀ i, (0 ≤ i)%Z → ¬ (lo ≤ i < t)%Z →
            vec_get b'.1 i = vec_get b.1 i ∧ vec_get b'.2 i = vec_get b.2 i))
    lo hi (set_bounds l u) b) as (b' & Hrun & Hinv); [done|done| | |].
  - do 2 (split; [done|]). split; [intros; lia|done].
  - intros t [w1 w2] Ht (Hw1 & Hw2 & Hin & Hout). simpl in *.
    unfold set_bounds. simpl.
    rewrite !vec_set_Some by lia. simpl. eexists. split; [done|]. simpl.
    rewrite !length_insert. do 2 (split; [done|]). split.
    + intros i Hi. rewrite !vec_get_insert by lia.
      case_decide; [done|]. apply Hin. lia.
    + intros i Hi0 Hi. rewrite !vec_get_insert by lia.
      case_decide; [lia|]. apply Hout; lia.
  - exists b'. split; [done|]. tauto.
Qed.

(** Lines 167-172, 202-207 and 209-214: the six components of the state
    are written at the start of their blocks. *)
Lemma store_state_eq (state v : list T) :
  <[Z.to_nat (idxEpsi N) := state_of state epsi_block]>
    (<[Z.to_nat (idxCTE N) := state_of state cte_block]>
       (<[Z.to_nat (idxV N) := state_of state v_block]>
          (<[Z.to_nat (idxPsi N) := state_of state psi_block]>
             (<[Z.to_nat (idxY N) := state_of state y_block]>
                (<[Z.to_nat idxX := state_of state x_block]> v)))))
  = store_blocks N 0 0 (state_of state) v.
Proof. unfold store_blocks. simpl foldl. by rewrite !Z.add_0_r. Qed.

Lemma store_state_at (state v : list T) b :
  (n_constraints N ≤ Z.of_nat (length v))%Z →
  vec_get (store_blocks N 0 0 (state_of state) v) (idx N b) = Some (state_of state b).
Proof.
  intros Hv.
  replace (idx N b) with (0 + (idx N b + 0))%Z at 1 by lia.
  apply store_blocks_same; [done|lia|lia|idx_lia].
Qed.

Lemma store_state_other (state v : list T) i :
  (0 ≤ i)%Z → (∀ b, i ≠ idx N b) →
  vec_get (store_blocks N 0 0 (state_of state) v) i = vec_get v i.
Proof.
  intros Hi Hne. apply store_blocks_other; [done| |lia..].
  intros b. specialize (Hne b). lia.
Qed.

Lemma Solve_setup_result fill (state : list T) :
  (6 ≤ length state)%nat →
  ∃ p, Solve_setup N fill state = Some p
    ∧ (Z.of_nat (length (vars p)) = n_vars N
       ∧ Z.of_nat (length (vars_lowerbound p)) = n_vars N
       ∧ Z.of_nat (length (vars_upperbound p)) = n_vars N
       ∧ Z.of_nat (length (constraints_lowerbound p)) = n_constraints N
       ∧ Z.of_nat (length (constraints_upperbound p)) = n_constraints N)
    ∧ (∀ i, (0 ≤ i < idxDelta N)%Z →
         vec_get (vars_lowerbound p) i = Some (#(-1e23))
         ∧ vec_get (vars_upperbound p) i = Some (#1e23))
    ∧ (∀ i, (idxDelta N ≤ i < idxA N)%Z →
         vec_get (vars_lowerbound p) i = Some (#(-0.436332))
         ∧ vec_get (vars_upperbound p) i = Some (#0.436332))
    ∧ (∀ i, (idxA N ≤ i < n_vars N)%Z →
         vec_get (vars_lowerbound p) i = Some (#(-1.0))
         ∧ vec_get (vars_upperbound p) i = Some (#1.0))
    ∧ (∀ b, vec_get (constraints_lowerbound p) (idx N b) = Some (state_of state b)
            ∧ vec_get (constraints_upperbound p) (idx N b) = Some (state_of state b))
    ∧ (∀ b t, (1 ≤ t < N)%Z →
         vec_get (constraints_lowerbound p) (idx N b + t) = Some (#0)
         ∧ vec_get (constraints_upperbound p) (idx N b + t) = Some (#0))
    ∧ (∀ b, vec_get (vars p) (idx N b) = Some (state_of state b))
    ∧ (∀ i, (0 ≤ i < n_vars N)%Z → (∀ b, i ≠ idx N b) → vec_get (vars p) i = Some (#0)).
Proof.
  intros Hstate. unfold Solve_setup.
  rewrite !(vec_get_at state) by lia. rewrite !option_bind_Some_l.
  change (at_index state 0) with (state_of state x_block).
  change (at_index state 1) with (state_of state y_block).
  change (at_index state 2) with (state_of state psi_block).
  change (at_index state 3) with (state_of state v_block).
  change (at_index state 4) with (state_of state cte_block).
  change (at_index state 5) with (state_of state epsi_block).
  pose proof (vec_new_length fill (n_vars N)) as Lv.
  pose proof (vec_new_length fill (n_constraints N)) as Lc.
  assert (0 ≤ n_vars N ∧ 0 ≤ n_constraints N)%Z as [Hnv Hnc] by idx_lia.
  specialize (Lv Hnv). specialize (Lc Hnc).
  destruct (fill_loop 0 (n_vars N) (#0) (vec_new fill (n_vars N)))
    as (v0 & -> & Lv0 & Zv0 & _); [idx_lia..|]. rewrite option_bind_Some_l.
  rewrite !bind_vec_set by (rewrite ?length_insert; idx_lia).
  rewrite store_state_eq.
  destruct (set_bounds_loop 0 (idxDelta N) (#(-1e23)) (#1e23)
              (vec_new fill (n_vars N), vec_new fill (n_vars N)))
    as (b1 & -> & L11 & L12 & In1 & _); [cbn [fst snd]; idx_lia..|]. rewrite option_bind_Some_l.
  destruct (set_bounds_loop (idxDelta N) (idxA N) (#(-0.436332)) (#0.436332) b1)
    as (b2 & -> & L21 & L22 & In2 & Out2); [idx_lia..|]. rewrite option_bind_Some_l.
  destruct (set_bounds_loop (idxA N) (n_vars N) (#(-1.0)) (#1.0) b2)
    as (b3 & -> & L31 & L32 & In3 & Out3); [idx_lia..|]. rewrite option_bind_Some_l.
  destruct (set_bounds_loop 0 (n_constraints N) (#0) (#0)
              (vec_new fill (n_constraints N), vec_new fill (n_constraints N)))
    as (c & -> & Lc1 & Lc2 & Inc & _); [cbn [fst snd]; idx_lia..|]. rewrite option_bind_Some_l.
  simpl in L11, L12, Lc1, Lc2.
  rewrite !bind_vec_set by (rewrite ?length_insert; idx_lia).
  rewrite !store_state_eq.
  eexists. split; [reflexivity|]. simpl.
  rewrite !store_blocks_length.
  split; [repeat split; idx_lia|].
  split.
  { intros i Hi.
    destruct (Out3 i) as [-> ->]; [idx_lia..|].
    destruct (Out2 i) as [-> ->]; [idx_lia..|].
    apply In1. lia. }
  split.
  { intros i Hi.
    destruct (Out3 i) as [-> ->]; [idx_lia..|].
    apply In2. lia. }
  split; [exact In3|].
  split.
  { intros b. split; apply store_state_at; idx_lia. }
  split.
  { intros b t Ht.
    rewrite !store_state_other by (first [destruct b; idx_lia | intros b'; destruct b, b'; idx_lia]).
    apply Inc. destruct b; idx_lia. }
  split.
  { intros b. apply store_state_at. idx_lia. }
  intros i Hi Hne. rewrite store_state_other by (done || lia).
  apply Zv0. lia.
Qed.


Lemma push_point_eq (sol_x : list T) t acc :
  Z.of_nat (length sol_x) = n_vars N → (0 ≤ t < N - 1)%Z →
  push_point N sol_x t acc
  = Some (acc ++ [variable N sol_x x_block (t + 1); variable N sol_x y_block (t + 1)]).
Proof.
  intros Hx Ht. unfold push_point. unwrap.
  rewrite !vec_get_at by idx_lia. by rewrite !option_bind_Some_l.
Qed.

(** Lines 261-264: the loop appends the positions of the timesteps after
    the first, in order. *)
Lemma push_point_loop (sol_x : list T) n t0 acc :
  Z.of_nat (length sol_x) = n_vars N → (0 ≤ t0)%Z → (t0 + Z.of_nat n ≤ N - 1)%Z →
  iterate_from n t0 (push_point N sol_x) acc
  = Some (acc ++ flat_map (λ t, [variable N sol_x x_block t; variable N sol_x y_block t])
                   (seqZ (t0 + 1) (Z.of_nat n))).
Proof.
  intros Hx. revert t0 acc. induction n as [|n IH]; intros t0 acc Ht0 Hn.
  - simpl. by rewrite app_nil_r.
  - rewrite seqZ_cons by lia. rewrite iterate_from_S.
    rewrite push_point_eq by (done || lia). rewrite option_bind_Some_l.
    rewrite IH by lia. f_equal. simpl flat_map. rewrite <- !app_assoc. simpl.
    by replace (Z.pred (Z.of_nat (S n))) with (Z.of_nat n) by lia.
Qed.

Lemma Solve_extract_result (solution : ipopt.solve_result T) :
  Z.of_nat (length (ipopt.x solution)) = n_vars N →
  Solve_extract N solution
  = Some ([steering N (ipopt.x solution) 0; acceleration N (ipopt.x solution) 0]
          ++ predicted_path N (ipopt.x solution)).
Proof.
  intros Hx. unfold Solve_extract. cbv zeta.
  rewrite !vec_get_at by idx_lia. rewrite !option_bind_Some_l.
  unwrap. rewrite for_uint_iterate by idx_lia.
  rewrite push_point_loop by (done || idx_lia).
  unfold predicted_path, steering, acceleration. rewrite !Z.add_0_r.
  replace (Z.of_nat (Z.to_nat (N - 1 - 0))) with (N - 1)%Z by idx_lia.
  done.
Qed.

Lemma pairs_lookup (f g : Z → T) n t0 k :
  (k < n)%nat →
  flat_map (λ t, [f t; g t]) (seqZ t0 (Z.of_nat n)) !! (2 * k)%nat
    = Some (f (t0 + Z.of_nat k)%Z)
  ∧ flat_map (λ t, [f t; g t]) (seqZ t0 (Z.of_nat n)) !! (2 * k + 1)%nat
    = Some (g (t0 + Z.of_nat k)%Z).
Proof.
  revert t0 k. induction n as [|n IH]; intros t0 k Hk; [lia|].
  rewrite seqZ_cons by lia.
  replace (Z.pred (Z.of_nat (S n))) with (Z.of_nat n) by lia.
  destruct k as [|k].
  - simpl. by rewrite Z.add_0_r.
  - replace (2 * S k)%nat with (S (S (2 * k))) by lia.
    replace (S (S (2 * k)) + 1)%nat with (S (S (2 * k + 1))) by lia.
    destruct (IH (Z.succ t0) k) as [Hf Hg]; [lia|].
    assert (Hskip : ∀ (l : list T) a b i, (a :: b :: l) !! S (S i) = l !! i) by done.
    simpl flat_map. rewrite !Hskip, Hf, Hg.
    split; do 2 f_equal; lia.
Qed.

Lemma pairs_length (f g : Z → T) n t0 :
  length (flat_map (λ t, [f t; g t]) (seqZ t0 (Z.of_nat n))) = (2 * n)%nat.
Proof.
  revert t0. induction n as [|n IH]; intros t0; [done|].
  rewrite seqZ_cons by lia.
  replace (Z.pred (Z.of_nat (S n))) with (Z.of_nat n) by lia.
  simpl. rewrite IH. lia.
Qed.

(** The positions come in pairs, the pair of timestep [t] at the places
    [2 (t - 1)] and [2 (t - 1) + 1] of the path. *)
Lemma predicted_path_lookup (sol_x : list T) t :
  (1 ≤ t ≤ N - 1)%Z →
  predicted_path N sol_x !! Z.to_nat (2 * (t - 1)) = Some (variable N sol_x x_block t)
  ∧ predicted_path N sol_x !! Z.to_nat (2 * (t - 1) + 1) = Some (variable N sol_x y_block t).
Proof.
  intros Ht. unfold predicted_path.
  replace (N - 1)%Z with (Z.of_nat (Z.to_nat (N - 1))) by lia.
  replace (Z.to_nat (2 * (t - 1))) with (2 * Z.to_nat (t - 1))%nat by lia.
  replace (Z.to_nat (2 * (t - 1) + 1)) with (2 * Z.to_nat (t - 1) + 1)%nat by lia.
  destruct (pairs_lookup (λ t, variable N sol_x x_block t)
              (λ t, variable N sol_x y_block t)
              (Z.to_nat (N - 1)) 1 (Z.to_nat (t - 1))) as [Hx Hy]; [lia|].
  rewrite Hx, Hy.
  by replace (1 + Z.of_nat (Z.to_nat (t - 1)))%Z with t by lia.
Qed.

Lemma predicted_path_length (sol_x : list T) :
  Z.of_nat (length (predicted_path N sol_x)) = (2 * (N - 1))%Z.
Proof.
  unfold predicted_path.
  replace (N - 1)%Z with (Z.of_nat (Z.to_nat (N - 1))) at 1 by idx_lia.
  rewrite pairs_length. idx_lia.
Qed.

End Controller.

(** ** The claims *)

Section Claims.
Variable N : Z.
Context {T : Type} `{Scalar T}.
Local Open Scope scalar_scope.

(** C1 (amended). For every state block the constraint entry of timestep 0
    is the variable itself, [variable(b,0)], not a difference with the
    initial state; [Solve] sets both constraint bounds at that index to the
    component of the state, so that at a point that respects the constraint
    bounds the entry, and with it the variable, lies between the state value
    and the state value. *)
Theorem initial_constraints_pin_state (fill : T) (state coeffs fg vars : list T) :
  valid_horizon N →
  length state = 6%nat → (4 ≤ length coeffs)%nat →
  Z.of_nat (length vars) = n_vars N →
  Z.of_nat (length fg) = (1 + n_constraints N)%Z →
  ∃ p fg', Solve_setup N fill state = Some p
    ∧ FG_eval N coeffs fg vars = Some fg'
    ∧ ∀ b, constraint N fg' b 0 = Some (variable N vars b 0)
         ∧ vec_get (constraints_lowerbound p) (idx N b) = Some (state_of state b)
         ∧ vec_get (constraints_upperbound p) (idx N b) = Some (state_of state b)
         ∧ (feasible p fg' →
            state_of state b <= variable N vars b 0
            ∧ variable N vars b 0 <= state_of state b).
Proof.
  intros HN Hstate Hcoeffs Hvars Hfg.
  destruct (Solve_setup_result N HN fill state) as (p & Hp & _ & _ & _ & _ & Hpin & _);
    [lia|].
  destruct (FG_eval_result N HN coeffs vars Hvars Hcoeffs fg Hfg)
    as (fg' & Hrun & Hlen & _ & Hinit & _).
  exists p, fg'. do 2 (split; [done|]). intros b.
  destruct (Hpin b) as [Hlo Hhi]. specialize (Hinit b).
  do 3 (split; [done|]). intros Hfeas.
  apply (Hfeas (Z.to_nat (idx N b)) _ _ _ Hlo Hhi).
  rewrite lookup_tail. unfold constraint, vec_get in Hinit.
  rewrite <- Hinit. f_equal. destruct b; idx_lia.
Qed.

(** C3 (amended). For every timestep t in [1, N) and every state block, the
    residual stored at the constraint index of the block and the timestep is
    the optimisation variable at t minus the value the model predicts for it
    (not the predicted value minus the variable). *)
Theorem dynamics_residual_orientation (coeffs fg vars : list T) :
  valid_horizon N →
  (4 ≤ length coeffs)%nat →
  Z.of_nat (length vars) = n_vars N →
  Z.of_nat (length fg) = (1 + n_constraints N)%Z →
  ∃ fg', FG_eval N coeffs fg vars = Some fg'
    ∧ ∀ t b, (1 ≤ t < N)%Z →
        constraint N fg' b t
        = Some (variable N vars b t - predicted_value N coeffs vars b t).
Proof.
  intros HN Hcoeffs Hvars Hfg.
  destruct (FG_eval_result N HN coeffs vars Hvars Hcoeffs fg Hfg)
    as (fg' & Hrun & _ & _ & _ & Hdyn).
  exists fg'. split; [done|]. intros t b Ht. by apply Hdyn.
Qed.

(** C4. In the dynamics constraints of timestep t, for t in [1, N), the
    steering and the acceleration are read at actuator index t - 2 when
    t > 1 and at index 0 when t = 1; in particular the constraints of
    timestep 2 read actuator index 0. *)
Theorem dynamics_use_delayed_actuators (coeffs fg vars : list T) :
  valid_horizon N →
  (4 ≤ length coeffs)%nat →
  Z.of_nat (length vars) = n_vars N →
  Z.of_nat (length fg) = (1 + n_constraints N)%Z →
  ∃ fg', FG_eval N coeffs fg vars = Some fg'
    ∧ (∀ t b, (1 ≤ t < N)%Z →
         let k := if decide (1 < t)%Z then (t - 2)%Z else 0%Z in
         constraint N fg' b t
         = Some (variable N vars b t
                 - bicycle_spec coeffs (λ b', variable N vars b' (t - 1))
                     (steering N vars k) (acceleration N vars k) b))
    ∧ (∀ b, (2 < N)%Z →
         constraint N fg' b 2
         = Some (variable N vars b 2
                 - bicycle_spec coeffs (λ b', variable N vars b' 1)
                     (steering N vars 0) (acceleration N vars 0) b)).
Proof.
  intros HN Hcoeffs Hvars Hfg.
  destruct (FG_eval_result N HN coeffs vars Hvars Hcoeffs fg Hfg)
    as (fg' & Hrun & _ & _ & _ & Hdyn).
  exists fg'. split; [done|]. split.
  - intros t b Ht k. rewrite Hdyn by done.
    unfold predicted_value, actuator_index_spec. subst k.
    destruct (decide (t = 1)) as [->|Hne].
    + by rewrite decide_False by lia.
    + by rewrite decide_True by lia.
  - intros b HN3. rewrite Hdyn by lia. done.
Qed.

(** C5. For every timestep t in [1, N) the value subtracted from the
    variable of timestep t in each dynamics constraint is the one of the
    discrete kinematic bicycle model: with the state of timestep t - 1, the
    actuator pair of the latency rule, f the cubic at x(t-1) and psides the
    arctangent of its derivative at x(t-1). *)
Theorem dynamics_are_bicycle_model (coeffs fg vars : list T) :
  valid_horizon N →
  (4 ≤ length coeffs)%nat →
  Z.of_nat (length vars) = n_vars N →
  Z.of_nat (length fg) = (1 + n_constraints N)%Z →
  ∃ fg', FG_eval N coeffs fg vars = Some fg'
    ∧ ∀ t, (1 ≤ t < N)%Z →
        let x0 := variable N vars x_block (t - 1) in
        let y0 := variable N vars y_block (t - 1) in
        let psi0 := variable N vars psi_block (t - 1) in
        let v0 := variable N vars v_block (t - 1) in
        let epsi0 := variable N vars epsi_block (t - 1) in
        let delta := steering N vars (actuator_index_spec t) in
        let a := acceleration N vars (actuator_index_spec t) in
        let c := at_index coeffs in
        let f := c 0%Z + c 1%Z * x0 + c 2%Z * s_pow x0 2 + c 3%Z * s_pow x0 3 in
        let psides := s_atan (c 1%Z + #2 * c 2%Z * x0 + #3 * c 3%Z * s_pow x0 2) in
        constraint N fg' x_block t
          = Some (variable N vars x_block t - (x0 + v0 * s_cos psi0 * #0.1))
        ∧ constraint N fg' y_block t
          = Some (variable N vars y_block t - (y0 + v0 * s_sin psi0 * #0.1))
        ∧ constraint N fg' psi_block t
          = Some (variable N vars psi_block t - (psi0 - v0 / #2.67 * delta * #0.1))
        ∧ constraint N fg' v_block t
          = Some (variable N vars v_block t - (v0 + a * #0.1))
        ∧ constraint N fg' cte_block t
          = Some (variable N vars cte_block t
                  - ((f - y0) + v0 * s_sin epsi0 * #0.1))
        ∧ constraint N fg' epsi_block t
          = Some (variable N vars epsi_block t
                  - ((psi0 - psides) - v0 / #2.67 * delta * #0.1)).
Proof.
  intros HN Hcoeffs Hvars Hfg.
  destruct (FG_eval_result N HN coeffs vars Hvars Hcoeffs fg Hfg)
    as (fg' & Hrun & _ & _ & _ & Hdyn).
  exists fg'. split; [done|]. intros t Ht. cbv zeta.
  by rewrite !Hdyn by done.
Qed.

(** C6. The cost, the first entry of [fg], is the sum of the tracking terms
    for every t in [0, N), the effort terms for every t in [0, N - 1) and
    the smoothness terms for every t in [0, N - 2), each with its weight. *)
Theorem cost_is_weighted_sum (coeffs fg vars : list T) :
  valid_horizon N →
  (4 ≤ length coeffs)%nat →
  Z.of_nat (length vars) = n_vars N →
  Z.of_nat (length fg) = (1 + n_constraints N)%Z →
  ∃ fg', FG_eval N coeffs fg vars = Some fg'
    ∧ vec_get fg' 0
      = Some (foldl s_add (#0)
                (flat_map (tracking_terms N vars) (seqZ 0 N)
                 ++ flat_map (effort_terms N vars) (seqZ 0 (N - 1))
                 ++ flat_map (smoothness_terms N vars) (seqZ 0 (N - 2)))).
Proof.
  intros HN Hcoeffs Hvars Hfg.
  destruct (FG_eval_result N HN coeffs vars Hvars Hcoeffs fg Hfg)
    as (fg' & Hrun & _ & Hcost & _).
  exists fg'. by split.
Qed.

(** C7. The bounds of the variables are constant per block: -1e23 and 1e23,
    the values that stand for no bound, in the six state blocks, -0.436332
    and 0.436332 for every steering variable, -1 and 1 for every
    acceleration variable; so whenever the solver reports success with a
    point inside these bounds, the steering command [Solve] returns lies in
    [-0.436332, 0.436332] and the acceleration command in [-1, 1]. *)
Theorem bounds_and_command_range (fill : T) (state : list T) :
  valid_horizon N →
  length state = 6%nat →
  ∃ p, Solve_setup N fill state = Some p
    ∧ (∀ i, (0 ≤ i < idxDelta N)%Z →
         vec_get (vars_lowerbound p) i = Some (#(-1e23))
         ∧ vec_get (vars_upperbound p) i = Some (#1e23))
    ∧ (∀ i, (idxDelta N ≤ i < idxA N)%Z →
         vec_get (vars_lowerbound p) i = Some (#(-0.436332))
         ∧ vec_get (vars_upperbound p) i = Some (#0.436332))
    ∧ (∀ i, (idxA N ≤ i < n_vars N)%Z →
         vec_get (vars_lowerbound p) i = Some (#(-1.0))
         ∧ vec_get (vars_upperbound p) i = Some (#1.0))
    ∧ (∀ (sv : solver T) (coeffs : list T),
         let solution := solve_call N sv coeffs p in
         ipopt.status solution = ipopt.success →
         Z.of_nat (length (ipopt.x solution)) = n_vars N →
         within_bounds (vars_lowerbound p) (vars_upperbound p) (ipopt.x solution) →
         ∃ steer accel path,
           Solve N sv fill state coeffs = Some (steer :: accel :: path)
           ∧ (#(-0.436332) <= steer ∧ steer <= #0.436332)
           ∧ (#(-1.0) <= accel ∧ accel <= #1.0)).
Proof.
  intros HN Hstate.
  destruct (Solve_setup_result N HN fill state)
    as (p & Hp & _ & Hsb & Hdb & Hab & _); [lia|].
  exists p. do 4 (split; [done|]).
  intros sv coeffs solution Hok Hx Hin.
  unfold Solve. rewrite Hp, option_bind_Some_l.
  fold (solve_call N sv coeffs p). fold solution.
  rewrite (Solve_extract_result N HN solution Hx).
  eexists _, _, _. split; [reflexivity|].
  unfold steering, acceleration. rewrite !Z.add_0_r.
  destruct (Hdb (idxDelta N)) as [Hdl Hdu]; [idx_lia|].
  destruct (Hab (idxA N)) as [Hal Hau]; [idx_lia|].
  split.
  - apply (Hin (Z.to_nat (idxDelta N))); [done..|].
    apply vec_get_at. idx_lia.
  - apply (Hin (Z.to_nat (idxA N))); [done..|].
    apply vec_get_at. idx_lia.
Qed.

(** C9. [Solve] returns a sequence of length 2 + 2 (N - 1): the steering and
    the acceleration of the solution at actuator index 0, then the predicted
    positions x(t), y(t) for t = 1 .. N - 1, interleaved in that order. *)
Theorem Solve_output_layout (sv : solver T) (fill : T) (state coeffs : list T) :
  valid_horizon N →
  length state = 6%nat →
  ∃ p, Solve_setup N fill state = Some p
    ∧ let sol_x := ipopt.x (solve_call N sv coeffs p) in
      Z.of_nat (length sol_x) = n_vars N →
      ∃ out, Solve N sv fill state coeffs = Some out
        ∧ out = [steering N sol_x 0; acceleration N sol_x 0] ++ predicted_path N sol_x
        ∧ Z.of_nat (length out) = (2 + 2 * (N - 1))%Z
        ∧ ∀ t, (1 ≤ t ≤ N - 1)%Z →
            out !! Z.to_nat (2 + 2 * (t - 1)) = Some (variable N sol_x x_block t)
            ∧ out !! Z.to_nat (2 + 2 * (t - 1) + 1) = Some (variable N sol_x y_block t).
Proof.
  intros HN Hstate.
  destruct (Solve_setup_result N HN fill state) as (p & Hp & _); [lia|].
  exists p. split; [done|]. intros sol_x Hx.
  eexists. split.
  { unfold Solve. rewrite Hp, option_bind_Some_l.
    fold (solve_call N sv coeffs p). by apply (Solve_extract_result N HN). }
  fold sol_x. split; [done|]. split.
  - rewrite length_app, Nat2Z.inj_add, predicted_path_length by done. simpl. lia.
  - intros t Ht.
    destruct (predicted_path_lookup N sol_x t Ht) as [Hpx Hpy].
    replace (Z.to_nat (2 + 2 * (t - 1))) with (S (S (Z.to_nat (2 * (t - 1))))) by lia.
    replace (Z.to_nat (2 + 2 * (t - 1) + 1))
      with (S (S (Z.to_nat (2 * (t - 1) + 1)))) by lia.
    done.
Qed.

(** C10. For a horizon of at least three steps, two variable vectors that
    differ only in the last actuator pair (steering index N - 2 and
    acceleration index N - 2) give the same constraint entries fg[1 .. 6N]:
    the dynamics read the actuator indices 0 .. N - 3 only. *)
Theorem last_actuators_only_in_cost (coeffs fg1 fg2 vars1 vars2 : list T) :
  valid_horizon N → (3 ≤ N)%Z →
  (4 ≤ length coeffs)%nat →
  Z.of_nat (length vars1) = n_vars N →
  Z.of_nat (length vars2) = n_vars N →
  Z.of_nat (length fg1) = (1 + n_constraints N)%Z →
  Z.of_nat (length fg2) = (1 + n_constraints N)%Z →
  (∀ i, (0 ≤ i)%Z → i ≠ (idxDelta N + (N - 2))%Z → i ≠ (idxA N + (N - 2))%Z →
     vec_get vars1 i = vec_get vars2 i) →
  ∃ g1 g2, FG_eval N coeffs fg1 vars1 = Some g1
    ∧ FG_eval N coeffs fg2 vars2 = Some g2
    ∧ ∀ k, (1 ≤ k ≤ n_constraints N)%Z → vec_get g1 k = vec_get g2 k.
Proof.
  intros HN HN3 Hcoeffs Hvars1 Hvars2 Hfg1 Hfg2 Hagree.
  destruct (FG_eval_result N HN coeffs vars1 Hvars1 Hcoeffs fg1 Hfg1)
    as (g1 & Hrun1 & _ & _ & Hinit1 & Hdyn1).
  destruct (FG_eval_result N HN coeffs vars2 Hvars2 Hcoeffs fg2 Hfg2)
    as (g2 & Hrun2 & _ & _ & Hinit2 & Hdyn2).
  exists g1, g2. do 2 (split; [done|]).
  assert (Hat : ∀ i, (0 ≤ i)%Z → i ≠ (idxDelta N + (N - 2))%Z →
                 i ≠ (idxA N + (N - 2))%Z → at_index vars1 i = at_index vars2 i).
  { intros i Hi Hd Ha. unfold at_index. by rewrite Hagree. }
  assert (Hvar : ∀ b t, (0 ≤ t < N)%Z → variable N vars1 b t = variable N vars2 b t).
  { intros b t Ht. apply Hat; destruct b; idx_lia. }
  assert (Hsteer : ∀ k, (0 ≤ k < N - 2)%Z → steering N vars1 k = steering N vars2 k).
  { intros k Hk. apply Hat; idx_lia. }
  assert (Haccel : ∀ k, (0 ≤ k < N - 2)%Z →
                     acceleration N vars1 k = acceleration N vars2 k).
  { intros k Hk. apply Hat; idx_lia. }
  assert (Hpred : ∀ b t, (1 ≤ t < N)%Z →
            predicted_value N coeffs vars1 b t = predicted_value N coeffs vars2 b t).
  { intros b t Ht. unfold predicted_value.
    assert (0 ≤ actuator_index_spec t < N - 2)%Z as Hk
      by (unfold actuator_index_spec; case_decide; lia).
    rewrite (Hsteer _ Hk), (Haccel _ Hk).
    unfold bicycle_spec. by destruct b; rewrite !Hvar by lia. }
  intros k Hk.
  assert (∃ b t, (0 ≤ t < N)%Z ∧ k = (1 + (idx N b + t))%Z) as (b & t & Ht & ->).
  { destruct (decide (k - 1 < N)%Z); [exists x_block, (k - 1)%Z; idx_lia|].
    destruct (decide (k - 1 < 2 * N)%Z); [exists y_block, (k - 1 - N)%Z; idx_lia|].
    destruct (decide (k - 1 < 3 * N)%Z); [exists psi_block, (k - 1 - 2 * N)%Z; idx_lia|].
    destruct (decide (k - 1 < 4 * N)%Z); [exists v_block, (k - 1 - 3 * N)%Z; idx_lia|].
    destruct (decide (k - 1 < 5 * N)%Z); [exists cte_block, (k - 1 - 4 * N)%Z; idx_lia|].
    exists epsi_block, (k - 1 - 5 * N)%Z; idx_lia. }
  fold (constraint N g1 b t). fold (constraint N g2 b t).
  destruct (decide (t = 0)) as [->|Hne].
  - rewrite Hinit1, Hinit2. f_equal. apply Hvar. lia.
  - rewrite Hdyn1, Hdyn2 by lia. f_equal. rewrite Hvar, Hpred by lia. done.
Qed.

(** C2 (the code does not do this). [Solve] never looks at the status of the
    solver: it returns the same value as with a solver that reports
    [success] on the same point, so a failure is not told apart from a valid
    command. *)
Theorem Solve_ignores_status (sv : solver T) (fill : T) (state coeffs : list T) :
  Solve N sv fill state coeffs = Solve N (with_status_success sv) fill state coeffs.
Proof. reflexivity. Qed.

End Claims.

(** C8 (amended). The constructor performs no validation: it succeeds
    whatever the horizon is, and raises no error; the horizon of the source
    is the constant 10, a valid one. *)
Theorem constructor_never_validates :
  (∀ N, MPC_new N = returns Build_MPC) ∧ valid_horizon N_default.
Proof.
  split; [done|]. unfold valid_horizon, N_default, UINT_MAX. lia.
Qed.

(** C8, as stated, fails: with a horizon of one step the constructor returns
    an object and raises nothing. *)
Lemma constructor_accepts_horizon_1 : MPC_new 1 ≠ raises ConfigurationError.
Proof. discriminate. Qed.

(** ** Concrete runs *)

Lemma valid_horizon_default : valid_horizon N_default.
Proof. unfold valid_horizon, N_default, UINT_MAX. lia. Qed.

(** With a solver that fails, [Solve] returns the command of the initial
    point, steering 0 and acceleration 0, like any other result. *)
Example Solve_stalled :
  Solve N_default Sample.stalled 0%R Sample.state Sample.coeffs
  = Some (replicate 20 (Q2R 0)).
Proof. reflexivity. Qed.

Lemma dynamics_residual_orientation_witness :
  ∃ fg', FG_eval N_default Sample.coeffs Sample.fg Sample.x1_is_1 = Some fg'
    ∧ ∀ t b, (1 ≤ t < N_default)%Z →
        constraint N_default fg' b t
        = Some (variable N_default Sample.x1_is_1 b t
                - predicted_value N_default Sample.coeffs Sample.x1_is_1 b t)%S.
Proof.
  apply (dynamics_residual_orientation N_default Sample.coeffs Sample.fg Sample.x1_is_1).
  - exact valid_horizon_default.
  - simpl. lia.
  - reflexivity.
  - reflexivity.
Defined.

(** C3, as stated, fails: with every variable zero but x(1) = 1 the residual
    of the x block at timestep 1 is 1, the variable minus the prediction,
    and not the prediction minus the variable, -1. *)
Lemma residual_is_not_predicted_minus_actual :
  ¬ (∀ fg' t b,
       FG_eval N_default Sample.coeffs Sample.fg Sample.x1_is_1 = Some fg' →
       (1 ≤ t < N_default)%Z →
       constraint N_default fg' b t
       = Some (predicted_value N_default Sample.coeffs Sample.x1_is_1 b t
               - variable N_default Sample.x1_is_1 b t)%S).
Proof.
  intros Hclaim.
  destruct (FG_eval_result N_default valid_horizon_default Sample.coeffs
              Sample.x1_is_1 eq_refl ltac:(simpl; lia) Sample.fg eq_refl)
    as (fg' & Hrun & _ & _ & _ & Hdyn).
  specialize (Hclaim fg' 1%Z x_block Hrun ltac:(unfold N_default; lia)).
  rewrite Hdyn in Hclaim by (unfold N_default; lia).
  injection Hclaim as Hclaim. revert Hclaim.
  change (variable N_default Sample.x1_is_1 x_block 1) with 1%R.
  change (variable N_default Sample.x1_is_1 x_block (1 - 1)) with 0%R.
  change (variable N_default Sample.x1_is_1 v_block (1 - 1)) with 0%R.
  intros Hclaim. lra.
Qed.

Ltac read_parked :=
  repeat match goal with
  | |- context [at_index ?v ?i] =>
      let a := eval vm_compute in (at_index v i) in
      change (at_index v i) with a
  end.

(** Along the parked trajectory the dynamics hold: every variable of the
    timesteps 1 .. 9 is the value the model predicts for it. *)
Lemma parked_follows_model b t :
  (1 ≤ t < N_default)%Z →
  (variable N_default Sample.parked b t
   - predicted_value N_default Sample.flat_path Sample.parked b t)%S = 0%R.
Proof.
  intros Ht. unfold N_default in Ht.
  assert (t = 1 ∨ t = 2 ∨ t = 3 ∨ t = 4 ∨ t = 5 ∨ t = 6 ∨ t = 7 ∨ t = 8 ∨ t = 9)%Z
    as Hcases by lia.
  unfold predicted_value, bicycle_spec, evaluate_spec, desiredHeading_spec,
    actuator_index_spec, variable, steering, acceleration.
  destruct Hcases as [->|[->|[->|[->|[->|[->|[->|[->| ->]]]]]]]];
    destruct b; simpl decide; cbv iota; read_parked; simpl; unfold Rdiv; try lra;
    (replace (R0 + Q2R 2 * R0 * R0 + Q2R 3 * R0 * (R0 * (R0 * 1)))%R with 0%R by lra;
     rewrite atan_0; lra).
Qed.

(** The parked trajectory respects the constraint bounds [Solve] builds for
    the state beside the path. *)
Lemma feasible_parked p fg' :
  Solve_setup N_default 0%R Sample.off_path = Some p →
  FG_eval N_default Sample.flat_path Sample.fg Sample.parked = Some fg' →
  feasible p fg'.
Proof.
  intros Hp Hrun.
  destruct (Solve_setup_result N_default valid_horizon_default 0%R Sample.off_path)
    as (p' & Hp' & _ & _ & _ & _ & Hpin & Hzero & _); [simpl; lia|].
  rewrite Hp in Hp'. injection Hp' as <-.
  destruct (FG_eval_result N_default valid_horizon_default Sample.flat_path
              Sample.parked eq_refl ltac:(simpl; lia) Sample.fg eq_refl)
    as (g & Hg & Hlen & _ & Hinit & Hdyn).
  rewrite Hrun in Hg. injection Hg as <-.
  intros i lo hi a Hlo Hhi Ha. rewrite lookup_tail in Ha.
  assert (Hi : (S i < 61)%nat).
  { apply lookup_lt_Some in Ha. by rewrite Hlen in Ha. }
  assert (∃ b t, (0 ≤ t < 10)%Z ∧ Z.of_nat i = (idx N_default b + t)%Z)
    as (b & t & Ht & Hbt).
  { destruct (decide (i < 10)%nat);
      [exists x_block, (Z.of_nat i); split; [lia|];
       change (idx N_default x_block) with 0%Z; lia|].
    destruct (decide (i < 20)%nat);
      [exists y_block, (Z.of_nat i - 10)%Z; split; [lia|];
       change (idx N_default y_block) with 10%Z; lia|].
    destruct (decide (i < 30)%nat);
      [exists psi_block, (Z.of_nat i - 20)%Z; split; [lia|];
       change (idx N_default psi_block) with 20%Z; lia|].
    destruct (decide (i < 40)%nat);
      [exists v_block, (Z.of_nat i - 30)%Z; split; [lia|];
       change (idx N_default v_block) with 30%Z; lia|].
    destruct (decide (i < 50)%nat);
      [exists cte_block, (Z.of_nat i - 40)%Z; split; [lia|];
       change (idx N_default cte_block) with 40%Z; lia|].
    exists epsi_block, (Z.of_nat i - 50)%Z; split; [lia|].
    change (idx N_default epsi_block) with 50%Z. lia. }
  assert (Hget : ∀ v : list R, vec_get v (idx N_default b + t) = v !! i).
  { intros v. unfold vec_get. by rewrite <- Hbt, Nat2Z.id. }
  assert (Hfg : constraint N_default fg' b t = Some a).
  { unfold constraint, vec_get. rewrite <- Ha. f_equal. lia. }
  destruct (decide (t = 0)) as [->|Hne].
  - destruct (Hpin b) as [El Eu].
    rewrite Z.add_0_r in Hget. rewrite Hget, Hlo in El. rewrite Hget, Hhi in Eu.
    rewrite Hinit in Hfg. injection Hfg as <-.
    injection El as ->. injection Eu as ->.
    unfold variable, state_of. destruct b; read_parked; simpl; lra.
  - destruct (Hzero b t) as [El Eu]; [unfold N_default; lia|].
    rewrite Hget, Hlo in El. rewrite Hget, Hhi in Eu.
    rewrite Hdyn in Hfg by (unfold N_default; lia). injection Hfg as <-.
    injection El as ->. injection Eu as ->.
    rewrite parked_follows_model by (unfold N_default; lia).
    change (Q2R 0 <= 0 ∧ 0 <= Q2R 0)%R. rewrite RMicromega.Q2R_0. lra.
Qed.

Lemma initial_constraints_pin_state_witness :
  ∃ p fg', Solve_setup N_default 0%R Sample.off_path = Some p
    ∧ FG_eval N_default Sample.flat_path Sample.fg Sample.parked = Some fg'
    ∧ feasible p fg'
    ∧ constraint N_default fg' y_block 0 = Some 1%R
    ∧ vec_get (constraints_lowerbound p) (idx N_default y_block) = Some 1%R
    ∧ vec_get (constraints_upperbound p) (idx N_default y_block) = Some 1%R
    ∧ ∀ b, constraint N_default fg' b 0 = Some (variable N_default Sample.parked b 0)
         ∧ (state_of Sample.off_path b <= variable N_default Sample.parked b 0
            ∧ variable N_default Sample.parked b 0 <= state_of Sample.off_path b)%S.
Proof.
  destruct (initial_constraints_pin_state N_default 0%R Sample.off_path
              Sample.flat_path Sample.fg Sample.parked) as (p & fg' & Hp & Hrun & Hb).
  - exact valid_horizon_default.
  - reflexivity.
  - simpl. lia.
  - reflexivity.
  - reflexivity.
  - exists p, fg'. split; [exact Hp|]. split; [exact Hrun|].
    pose proof (feasible_parked p fg' Hp Hrun) as Hfeas.
    split; [exact Hfeas|].
    destruct (Hb y_block) as (Hy & Hlo & Hhi & _).
    split; [exact Hy|]. split; [exact Hlo|]. split; [exact Hhi|].
    intros b. destruct (Hb b) as (Hentry & _ & _ & Hpin).
    split; [exact Hentry|exact (Hpin Hfeas)].
Defined.

(** C1, as stated, fails: at the initial point of the sample state the
    constraint entry of the y block at timestep 0 is the variable, 1, and
    not the variable minus the state, 0. *)
Lemma initial_constraint_is_not_a_difference :
  ¬ (∀ fg' b,
       FG_eval N_default Sample.coeffs Sample.fg Sample.initial_point = Some fg' →
       constraint N_default fg' b 0
       = Some (variable N_default Sample.initial_point b 0
               - state_of Sample.state b)%S).
Proof.
  intros Hclaim.
  destruct (FG_eval_result N_default valid_horizon_default Sample.coeffs
              Sample.initial_point eq_refl ltac:(simpl; lia) Sample.fg eq_refl)
    as (fg' & Hrun & _ & _ & Hinit & _).
  specialize (Hclaim fg' y_block Hrun).
  rewrite Hinit in Hclaim.
  injection Hclaim as Hclaim. revert Hclaim.
  change (variable N_default Sample.initial_point y_block 0) with 1%R.
  change (state_of Sample.state y_block) with 1%R.
  intros Hclaim. lra.
Qed.

Lemma dynamics_use_delayed_actuators_witness :
  ∃ fg', FG_eval N_default Sample.coeffs Sample.fg Sample.last_pair_is_1 = Some fg'
    ∧ (∀ t b, (1 ≤ t < N_default)%Z →
         let k := if decide (1 < t)%Z then (t - 2)%Z else 0%Z in
         constraint N_default fg' b t
         = Some (variable N_default Sample.last_pair_is_1 b t
                 - bicycle_spec Sample.coeffs
                     (λ b', variable N_default Sample.last_pair_is_1 b' (t - 1))
                     (steering N_default Sample.last_pair_is_1 k)
                     (acceleration N_default Sample.last_pair_is_1 k) b)%S)
    ∧ (∀ b, (2 < N_default)%Z →
         constraint N_default fg' b 2
         = Some (variable N_default Sample.last_pair_is_1 b 2
                 - bicycle_spec Sample.coeffs
                     (λ b', variable N_default Sample.last_pair_is_1 b' 1)
                     (steering N_default Sample.last_pair_is_1 0)
                     (acceleration N_default Sample.last_pair_is_1 0) b)%S).
Proof.
  apply (dynamics_use_delayed_actuators N_default Sample.coeffs Sample.fg
           Sample.last_pair_is_1).
  - exact valid_horizon_default.
  - simpl. lia.
  - reflexivity.
  - reflexivity.
Defined.

Lemma dynamics_are_bicycle_model_witness :
  ∃ fg', FG_eval N_default Sample.coeffs Sample.fg Sample.initial_point = Some fg'
    ∧ constraint N_default fg' v_block 1
      = Some (variable N_default Sample.initial_point v_block 1
              - (variable N_default Sample.initial_point v_block 0
                 + acceleration N_default Sample.initial_point 0 * Q2R 0.1))%R.
Proof.
  destruct (dynamics_are_bicycle_model N_default Sample.coeffs Sample.fg
              Sample.initial_point) as (fg' & Hrun & Hdyn).
  - exact valid_horizon_default.
  - simpl. lia.
  - reflexivity.
  - reflexivity.
  - exists fg'. split; [exact Hrun|].
    destruct (Hdyn 1%Z) as (_ & _ & _ & Hv & _); [unfold N_default; lia|].
    exact Hv.
Defined.

Lemma cost_is_weighted_sum_witness :
  ∃ fg', FG_eval N_default Sample.coeffs Sample.fg Sample.initial_point = Some fg'
    ∧ vec_get fg' 0
      = Some (foldl s_add (#0)%S
                (flat_map (tracking_terms N_default Sample.initial_point) (seqZ 0 N_default)
                 ++ flat_map (effort_terms N_default Sample.initial_point)
                      (seqZ 0 (N_default - 1))
                 ++ flat_map (smoothness_terms N_default Sample.initial_point)
                      (seqZ 0 (N_default - 2)))).
Proof.
  apply (cost_is_weighted_sum N_default Sample.coeffs Sample.fg Sample.initial_point).
  - exact valid_horizon_default.
  - simpl. lia.
  - reflexivity.
  - reflexivity.
Defined.

Lemma last_actuators_only_in_cost_witness :
  ∃ g1 g2, FG_eval N_default Sample.coeffs Sample.fg Sample.zeros = Some g1
    ∧ FG_eval N_default Sample.coeffs Sample.fg Sample.last_pair_is_1 = Some g2
    ∧ ∀ k, (1 ≤ k ≤ n_constraints N_default)%Z → vec_get g1 k = vec_get g2 k.
Proof.
  apply (last_actuators_only_in_cost N_default Sample.coeffs Sample.fg Sample.fg
           Sample.zeros Sample.last_pair_is_1).
  - exact valid_horizon_default.
  - unfold N_default. lia.
  - simpl. lia.
  - reflexivity.
  - reflexivity.
  - reflexivity.
  - reflexivity.
  - intros i Hi Hd Ha. unfold vec_get, Sample.last_pair_is_1.
    change (idxDelta N_default + (N_default - 2))%Z with 68%Z in Hd.
    change (idxA N_default + (N_default - 2))%Z with 77%Z in Ha.
    by rewrite !list_lookup_insert_ne by lia.
Defined.

Lemma Q2R_nonpos q : (q <= 0)%Q → (Q2R q <= 0)%R.
Proof. intros Hq. rewrite <- RMicromega.Q2R_0. by apply Qreals.Qle_Rle. Qed.

Lemma Q2R_nonneg q : (0 <= q)%Q → (0 <= Q2R q)%R.
Proof. intros Hq. rewrite <- RMicromega.Q2R_0. by apply Qreals.Qle_Rle. Qed.

Lemma bounds_and_command_range_witness :
  ∃ steer accel path,
    Solve N_default Sample.at_origin 0%R Sample.state Sample.coeffs
    = Some (steer :: accel :: path)
    ∧ (#(-0.436332) <= steer ∧ steer <= #0.436332)%S
    ∧ (#(-1.0) <= accel ∧ accel <= #1.0)%S.
Proof.
  destruct (bounds_and_command_range N_default 0%R Sample.state
              valid_horizon_default eq_refl)
    as (p & Hp & Hstate & Hdelta & Ha & Hcommand).
  destruct (Solve_setup_result N_default valid_horizon_default 0%R Sample.state)
    as (p' & Hp' & (Hlen & Hlo & Hhi & _) & _); [simpl; lia|].
  rewrite Hp in Hp'. injection Hp' as <-.
  apply (Hcommand Sample.at_origin Sample.coeffs).
  - reflexivity.
  - unfold solve_call, Sample.at_origin. simpl. rewrite length_replicate. exact Hlen.
  - intros i lo hi a Hl Hu Hx.
    unfold solve_call, Sample.at_origin in Hx. simpl in Hx.
    apply lookup_replicate in Hx as [-> Hi].
    assert (Hn : n_vars N_default = 78%Z) by reflexivity.
    assert (HD : idxDelta N_default = 60%Z) by reflexivity.
    assert (HA : idxA N_default = 69%Z) by reflexivity.
    assert (Hget : ∀ v : list R, vec_get v (Z.of_nat i) = v !! i)
      by (intros v; unfold vec_get; by rewrite Nat2Z.id).
    destruct (decide (Z.of_nat i < 60)%Z) as [H1|H1].
    { destruct (Hstate (Z.of_nat i)) as [El Eu]; [lia|].
      rewrite Hget, Hl in El. rewrite Hget, Hu in Eu.
      injection El as ->. injection Eu as ->.
      split; [apply Q2R_nonpos|apply Q2R_nonneg]; discriminate. }
    destruct (decide (Z.of_nat i < 69)%Z) as [H2|H2].
    { destruct (Hdelta (Z.of_nat i)) as [El Eu]; [lia|].
      rewrite Hget, Hl in El. rewrite Hget, Hu in Eu.
      injection El as ->. injection Eu as ->.
      split; [apply Q2R_nonpos|apply Q2R_nonneg]; discriminate. }
    destruct (Ha (Z.of_nat i)) as [El Eu]; [lia|].
    rewrite Hget, Hl in El. rewrite Hget, Hu in Eu.
    injection El as ->. injection Eu as ->.
    split; [apply Q2R_nonpos|apply Q2R_nonneg]; discriminate.
Defined.

Lemma Solve_output_layout_witness :
  ∃ out, Solve N_default Sample.stalled 0%R Sample.state Sample.coeffs = Some out
    ∧ Z.of_nat (length out) = (2 + 2 * (N_default - 1))%Z.
Proof.
  destruct (Solve_output_layout N_default Sample.stalled 0%R Sample.state Sample.coeffs
              valid_horizon_default eq_refl) as (p & Hp & Hout).
  destruct (Solve_setup_result N_default valid_horizon_default 0%R Sample.state)
    as (p' & Hp' & (Hlen & _) & _); [simpl; lia|].
  rewrite Hp in Hp'. injection Hp' as <-.
  destruct (Hout Hlen) as (out & Hrun & _ & Hlength & _).
  exists out. by split.
Defined.

(** * Further properties of the code *)

(** ** The layout of the solver vector *)

Section LayoutProperties.
Variable N : Z.
Hypothesis HN : valid_horizon N.

(** X1. The solver vector has 6 N + 2 (N - 1) entries and the constraint vector
    6 N; the eight blocks follow one another without a gap, the last one
    ending where the vector ends. *)
Theorem vectors_sizes_and_blocks :
  n_vars N = 6 * N + 2 * (N - 1)
  ∧ n_constraints N = 6 * N
  ∧ idxX = 0
  ∧ idxY N = idxX + N
  ∧ idxPsi N = idxY N + N
  ∧ idxV N = idxPsi N + N
  ∧ idxCTE N = idxV N + N
  ∧ idxEpsi N = idxCTE N + N
  ∧ idxDelta N = idxEpsi N + N
  ∧ idxA N = idxDelta N + (N - 1)
  ∧ n_vars N = idxA N + (N - 1)
  ∧ n_constraints N = idxDelta N.
Proof. repeat split; idx_lia. Qed.

(** X2. No two variables share a place of the solver vector: the place of a
    state variable determines its block and its timestep, and differs from
    the place of every actuator; a steering and an acceleration never share
    a place either. *)
Theorem variables_have_distinct_places b b' t t' k k' :
  0 ≤ t < N → 0 ≤ t' < N → 0 ≤ k < N - 1 → 0 ≤ k' < N - 1 →
  (idx N b + t = idx N b' + t' → b = b' ∧ t = t')
  ∧ idx N b + t ≠ idxDelta N + k
  ∧ idx N b + t ≠ idxA N + k
  ∧ idxDelta N + k ≠ idxA N + k'
  ∧ 0 ≤ idx N b + t < n_vars N
  ∧ 0 ≤ idxDelta N + k < n_vars N
  ∧ 0 ≤ idxA N + k < n_vars N.
Proof.
  intros Ht Ht' Hk Hk'.
  split; [|destruct b; repeat split; idx_lia].
  intros Heq. destruct b, b'; (split; [reflexivity || (exfalso; idx_lia)|idx_lia]).
Qed.

(** X3. Every place of the solver vector holds a variable: a state variable of
    some block and timestep, a steering or an acceleration. *)
Theorem every_place_holds_a_variable i :
  0 ≤ i < n_vars N →
  (∃ b t, 0 ≤ t < N ∧ i = idx N b + t)
  ∨ (∃ k, 0 ≤ k < N - 1 ∧ i = idxDelta N + k)
  ∨ (∃ k, 0 ≤ k < N - 1 ∧ i = idxA N + k).
Proof.
  intros Hi.
  destruct (decide (i < N)); [left; exists x_block, i; idx_lia|].
  destruct (decide (i < 2 * N)); [left; exists y_block, (i - N); idx_lia|].
  destruct (decide (i < 3 * N)); [left; exists psi_block, (i - 2 * N); idx_lia|].
  destruct (decide (i < 4 * N)); [left; exists v_block, (i - 3 * N); idx_lia|].
  destruct (decide (i < 5 * N)); [left; exists cte_block, (i - 4 * N); idx_lia|].
  destruct (decide (i < 6 * N)); [left; exists epsi_block, (i - 5 * N); idx_lia|].
  destruct (decide (i < 7 * N - 1)); [right; left; exists (i - 6 * N); idx_lia|].
  right; right; exists (i - (7 * N - 1)); idx_lia.
Qed.

End LayoutProperties.

(** ** The evaluator *)

Lemma option_bind_None_r {A B} (m : option A) (f : A → option B) :
  (∀ a, f a = None) → m ≫= f = None.
Proof. intros Hf. destruct m as [a|]; [apply Hf|done]. Qed.

Lemma flat_map_agree {A B} (f g : A → list B) (l : list A) :
  (∀ a, a ∈ l → f a = g a) → flat_map f l = flat_map g l.
Proof.
  induction l as [|a l IH]; intros Hfg; [done|].
  simpl. rewrite Hfg by left. rewrite IH; [done|].
  intros a' Ha'. apply Hfg. by right.
Qed.

Section EvaluatorProperties.
Variable N : Z.
Context {T : Type} `{Scalar T}.
Hypothesis HN : valid_horizon N.
Local Open Scope scalar_scope.

(** Every constraint entry belongs to one block and one timestep. *)
Lemma constraint_place k :
  (1 ≤ k ≤ n_constraints N)%Z →
  ∃ b t, (0 ≤ t < N)%Z ∧ k = (1 + (idx N b + t))%Z.
Proof.
  intros Hk.
  destruct (decide (k - 1 < N)%Z); [exists x_block, (k - 1)%Z; idx_lia|].
  destruct (decide (k - 1 < 2 * N)%Z); [exists y_block, (k - 1 - N)%Z; idx_lia|].
  destruct (decide (k - 1 < 3 * N)%Z); [exists psi_block, (k - 1 - 2 * N)%Z; idx_lia|].
  destruct (decide (k - 1 < 4 * N)%Z); [exists v_block, (k - 1 - 3 * N)%Z; idx_lia|].
  destruct (decide (k - 1 < 5 * N)%Z); [exists cte_block, (k - 1 - 4 * N)%Z; idx_lia|].
  exists epsi_block, (k - 1 - 5 * N)%Z; idx_lia.
Qed.

(** X4. [fg] is an output only: the evaluator keeps its size and writes every
    entry, so the result does not depend on what [fg] held before. *)
Theorem FG_eval_overwrites_fg (coeffs fg1 fg2 vars : list T) :
  (4 ≤ length coeffs)%nat →
  Z.of_nat (length vars) = n_vars N →
  Z.of_nat (length fg1) = (1 + n_constraints N)%Z →
  Z.of_nat (length fg2) = (1 + n_constraints N)%Z →
  ∃ g, FG_eval N coeffs fg1 vars = Some g
    ∧ FG_eval N coeffs fg2 vars = Some g
    ∧ length g = length fg1.
Proof.
  intros Hcoeffs Hvars Hfg1 Hfg2.
  destruct (FG_eval_result N HN coeffs vars Hvars Hcoeffs fg1 Hfg1)
    as (g1 & Hrun1 & Hlen1 & Hcost1 & Hinit1 & Hdyn1).
  destruct (FG_eval_result N HN coeffs vars Hvars Hcoeffs fg2 Hfg2)
    as (g2 & Hrun2 & Hlen2 & Hcost2 & Hinit2 & Hdyn2).
  exists g1. split; [done|]. split; [|done].
  rewrite Hrun2. f_equal. symmetry. apply list_eq. intros i.
  destruct (decide (i < length g1)%nat) as [Hi|Hi].
  - destruct (decide (i = 0%nat)) as [->|Hi0].
    + change (vec_get g1 0 = vec_get g2 0). by rewrite Hcost1, Hcost2.
    + destruct (constraint_place (Z.of_nat i)) as (b & t & Ht & Hbt); [lia|].
      assert (Hc : ∀ g : list T, constraint N g b t = g !! i).
      { intros g. unfold constraint, vec_get. by rewrite <- Hbt, Nat2Z.id. }
      rewrite <- !Hc. destruct (decide (t = 0)) as [->|Hne].
      * by rewrite Hinit1, Hinit2.
      * by rewrite Hdyn1, Hdyn2 by lia.
  - rewrite !lookup_ge_None_2; [done|lia..].
Qed.

(** X5. The cost reads the cte, epsi and v blocks and the actuators only: two
    variable vectors that agree from the v block on, whatever their x, y and
    psi blocks hold, have the same cost. *)
Theorem cost_ignores_position (coeffs fg vars1 vars2 : list T) :
  (4 ≤ length coeffs)%nat →
  Z.of_nat (length vars1) = n_vars N →
  Z.of_nat (length vars2) = n_vars N →
  Z.of_nat (length fg) = (1 + n_constraints N)%Z →
  (∀ i, (idxV N ≤ i)%Z → vec_get vars1 i = vec_get vars2 i) →
  ∃ g1 g2, FG_eval N coeffs fg vars1 = Some g1
    ∧ FG_eval N coeffs fg vars2 = Some g2
    ∧ vec_get g1 0 = vec_get g2 0.
Proof.
  intros Hcoeffs Hvars1 Hvars2 Hfg Hagree.
  destruct (FG_eval_result N HN coeffs vars1 Hvars1 Hcoeffs fg Hfg)
    as (g1 & Hrun1 & _ & Hcost1 & _).
  destruct (FG_eval_result N HN coeffs vars2 Hvars2 Hcoeffs fg Hfg)
    as (g2 & Hrun2 & _ & Hcost2 & _).
  exists g1, g2. do 2 (split; [done|]).
  rewrite Hcost1, Hcost2. f_equal.
  assert (Hat : ∀ i, (idxV N ≤ i)%Z → at_index vars1 i = at_index vars2 i).
  { intros i Hi. unfold at_index. by rewrite Hagree. }
  unfold cost_spec, cost_terms_spec. do 2 f_equal; [|f_equal].
  - apply flat_map_agree. intros t Ht%elem_of_seqZ.
    unfold tracking_terms, variable. by rewrite !Hat by idx_lia.
  - apply flat_map_agree. intros t Ht%elem_of_seqZ.
    unfold effort_terms, variable, steering, acceleration.
    by rewrite !Hat by idx_lia.
  - apply flat_map_agree. intros t Ht%elem_of_seqZ.
    unfold smoothness_terms, steering, acceleration.
    by rewrite !Hat by idx_lia.
Qed.

(** X6. The constraints of a timestep are local: for t in [1, N) the six
    entries of timestep t read the state variables of the timesteps t - 1
    and t and the actuator pair of the latency rule, and nothing else. *)
Theorem dynamics_are_local (coeffs fg vars1 vars2 : list T) t :
  (4 ≤ length coeffs)%nat →
  Z.of_nat (length vars1) = n_vars N →
  Z.of_nat (length vars2) = n_vars N →
  Z.of_nat (length fg) = (1 + n_constraints N)%Z →
  (1 ≤ t < N)%Z →
  (∀ b, vec_get vars1 (idx N b + (t - 1)) = vec_get vars2 (idx N b + (t - 1))) →
  (∀ b, vec_get vars1 (idx N b + t) = vec_get vars2 (idx N b + t)) →
  vec_get vars1 (idxDelta N + actuator_index_spec t)
    = vec_get vars2 (idxDelta N + actuator_index_spec t) →
  vec_get vars1 (idxA N + actuator_index_spec t)
    = vec_get vars2 (idxA N + actuator_index_spec t) →
  ∃ g1 g2, FG_eval N coeffs fg vars1 = Some g1
    ∧ FG_eval N coeffs fg vars2 = Some g2
    ∧ ∀ b, constraint N g1 b t = constraint N g2 b t.
Proof.
  intros Hcoeffs Hvars1 Hvars2 Hfg Ht Hprev Hcur Hdelta Ha.
  destruct (FG_eval_result N HN coeffs vars1 Hvars1 Hcoeffs fg Hfg)
    as (g1 & Hrun1 & _ & _ & _ & Hdyn1).
  destruct (FG_eval_result N HN coeffs vars2 Hvars2 Hcoeffs fg Hfg)
    as (g2 & Hrun2 & _ & _ & _ & Hdyn2).
  exists g1, g2. do 2 (split; [done|]). intros b.
  rewrite Hdyn1, Hdyn2 by done. f_equal.
  assert (Hp : ∀ b', variable N vars1 b' (t - 1) = variable N vars2 b' (t - 1)).
  { intros b'. unfold variable, at_index. by rewrite Hprev. }
  assert (Hc : variable N vars1 b t = variable N vars2 b t).
  { unfold variable, at_index. by rewrite Hcur. }
  unfold predicted_value, steering, acceleration, at_index.
  rewrite Hc, Hdelta, Ha. f_equal.
  unfold bicycle_spec. by destruct b; rewrite !Hp.
Qed.

End EvaluatorProperties.

(** ** The evaluator outside its domain *)

Lemma for_uint_unreachable {St} lo hi (body : Z → St → option St) s :
  UINT_MAX < hi → for_uint lo hi body s = None.
Proof. intros Hhi. unfold for_uint. by rewrite decide_False by lia. Qed.

(** X7. With a horizon below two steps the evaluator has no result, whatever the
    vectors are: [N - 2] (and for [N = 0] already [N - 1]) wraps around to a
    bound that the [uint] counter never reaches, and the loop runs off the
    end of [vars]. *)
Theorem FG_eval_degenerate_horizon {T} `{Scalar T} N (coeffs fg vars : list T) :
  0 ≤ N < 2 → FG_eval N coeffs fg vars = None.
Proof.
  intros HN. assert (N = 0 ∨ N = 1) as [-> | ->] by lia; unfold FG_eval.
  - do 2 (apply option_bind_None_r; intros ?).
    by rewrite for_uint_unreachable by reflexivity.
  - do 3 (apply option_bind_None_r; intros ?).
    by rewrite for_uint_unreachable by reflexivity.
Qed.

Section EvaluatorDomain.
Variable N : Z.
Context {T : Type} `{Scalar T}.
Hypothesis HN : valid_horizon N.
Local Open Scope scalar_scope.

(** The evaluator up to its last loop: the cost is complete and the entries
    of timestep 0 are written, whatever the coefficients are. *)
Lemma FG_eval_until_dynamics (coeffs vars : list T) c0 g :
  Z.of_nat (length vars) = n_vars N →
  Z.of_nat (length (c0 :: g)) = (1 + n_constraints N)%Z →
  FG_eval N coeffs (c0 :: g) vars
  = for_uint 1 N (constraints_step N coeffs vars)
      (store_blocks N 1 0 (λ b, variable N vars b 0) (cost_spec N vars :: g)).
Proof.
  intros Hvars Hfg. unfold FG_eval.
  assert (Hfour : (4 ≤ length (replicate 4 (#0)))%nat) by (simpl; lia).
  change (vec_set (c0 :: g) 0 (#0)) with (Some (#0 :: g)).
  rewrite option_bind_Some_l.
  rewrite (for_uint_cost N _ (tracking_terms N vars)) by
    (first [idx_lia | intros; by apply (cost_errors_cons N HN _ vars Hvars Hfour)]).
  rewrite option_bind_Some_l. unwrap.
  rewrite (for_uint_cost (N - 1) _ (effort_terms N vars)) by
    (first [idx_lia | intros; by apply (cost_actuators_cons N HN _ vars Hvars Hfour)]).
  rewrite option_bind_Some_l.
  rewrite (for_uint_cost (N - 2) _ (smoothness_terms N vars)) by
    (first [idx_lia | intros; by apply (cost_changes_cons N HN _ vars Hvars Hfour)]).
  rewrite option_bind_Some_l. rewrite <- !foldl_app.
  fold (cost_terms_spec N vars). fold (cost_spec N vars).
  rewrite (constraints_init_eq N HN _ vars Hvars Hfour) by done.
  by rewrite option_bind_Some_l.
Qed.

(** X8. The path must come with its four coefficients: with fewer the first
    dynamics step reads past the end of [coeffs] and the evaluator has no
    result. *)
Theorem FG_eval_needs_four_coefficients (coeffs fg vars : list T) :
  (length coeffs < 4)%nat →
  Z.of_nat (length vars) = n_vars N →
  Z.of_nat (length fg) = (1 + n_constraints N)%Z →
  FG_eval N coeffs fg vars = None.
Proof.
  intros Hcoeffs Hvars Hfg.
  destruct fg as [|c0 g]; [simpl in Hfg; idx_lia|].
  rewrite FG_eval_until_dynamics by done.
  rewrite for_uint_iterate by idx_lia.
  replace (Z.to_nat (N - 1)) with (S (Z.to_nat (N - 2))) by idx_lia.
  rewrite iterate_from_S.
  assert (Hstep : ∀ fg0, constraints_step N coeffs vars 1 fg0 = None);
    [|by rewrite Hstep].
  intros fg0. unfold constraints_step.
  assert (Ht : (1 ≤ 1 < N)%Z) by idx_lia. unwrap.
  rewrite !(vec_get_at vars) by idx_lia.
  rewrite !option_bind_Some_l.
  destruct (decide (1 > 1)%Z) as [Hgt|_]; [lia|].
  rewrite !option_bind_Some_l.
  destruct coeffs as [|c [|c1 [|c2 [|c3 rest]]]]; try done.
  simpl in Hcoeffs. lia.
Qed.

End EvaluatorDomain.

(** ** The cost over the real numbers *)

Lemma foldl_Rplus_nonneg (l : list R) (a : R) :
  (0 <= a)%R → Forall (λ x, 0 <= x)%R l → (0 <= foldl Rplus a l)%R.
Proof.
  revert a. induction l as [|x l IH]; intros a Ha Hl; [done|].
  inversion Hl as [|? ? Hx Hl']; subst. simpl. apply IH; [lra|done].
Qed.

Lemma Forall_flat_map {A B} (P : B → Prop) (f : A → list B) (l : list A) :
  (∀ a, Forall P (f a)) → Forall P (flat_map f l).
Proof.
  intros Hf. induction l as [|a l IH]; simpl; [apply List.Forall_nil|].
  apply Forall_app. by split.
Qed.

Lemma weighted_square_nonneg (w : Q) (x : R) :
  (0 <= w)%Q → (0 <= Q2R w * x ^ 2)%R.
Proof.
  intros Hw. apply Rmult_le_pos; [by apply Q2R_nonneg|apply pow2_ge_0].
Qed.

(** X9. Every term of the cost is a square with a nonnegative weight: over the
    real numbers the cost the evaluator returns is never negative. *)
Theorem cost_is_nonnegative N (coeffs fg vars : list R) :
  valid_horizon N →
  (4 ≤ length coeffs)%nat →
  Z.of_nat (length vars) = n_vars N →
  Z.of_nat (length fg) = (1 + n_constraints N)%Z →
  ∃ g c, FG_eval N coeffs fg vars = Some g ∧ vec_get g 0 = Some c ∧ (0 <= c)%R.
Proof.
  intros HN Hcoeffs Hvars Hfg.
  destruct (FG_eval_result N HN coeffs vars Hvars Hcoeffs fg Hfg)
    as (g & Hrun & _ & Hcost & _).
  exists g, (cost_spec N vars). do 2 (split; [done|]).
  unfold cost_spec. apply foldl_Rplus_nonneg.
  { change (0 <= Q2R 0)%R. rewrite RMicromega.Q2R_0. lra. }
  unfold cost_terms_spec. rewrite !Forall_app. repeat split.
  - apply Forall_flat_map. intros t.
    repeat (apply List.Forall_cons; [by apply weighted_square_nonneg|]).
    apply List.Forall_nil.
  - apply Forall_flat_map. intros t.
    repeat (apply List.Forall_cons; [by apply weighted_square_nonneg|]).
    apply List.Forall_nil.
  - apply Forall_flat_map. intros t.
    repeat (apply List.Forall_cons; [by apply weighted_square_nonneg|]).
    apply List.Forall_nil.
Qed.

(** ** The problem handed to the solver *)

Lemma vectors_agree {A} (l1 l2 : list A) (n : Z) :
  Z.of_nat (length l1) = n → Z.of_nat (length l2) = n →
  (∀ i, 0 ≤ i < n → vec_get l1 i = vec_get l2 i) → l1 = l2.
Proof.
  intros H1 H2 Hget. apply list_eq. intros i.
  destruct (decide (Z.of_nat i < n)) as [Hi|Hi].
  - specialize (Hget (Z.of_nat i) ltac:(lia)).
    unfold vec_get in Hget. by rewrite Nat2Z.id in Hget.
  - rewrite !lookup_ge_None_2; [done|lia..].
Qed.

Section ProblemProperties.
Variable N : Z.
Context {T : Type} `{Scalar T}.
Hypothesis HN : valid_horizon N.
Local Open Scope scalar_scope.

Lemma state_place_or_not i :
  (∃ b, i = idx N b) ∨ (∀ b, i ≠ idx N b).
Proof.
  destruct (decide (i = idx N x_block)); [left; by exists x_block|].
  destruct (decide (i = idx N y_block)); [left; by exists y_block|].
  destruct (decide (i = idx N psi_block)); [left; by exists psi_block|].
  destruct (decide (i = idx N v_block)); [left; by exists v_block|].
  destruct (decide (i = idx N cte_block)); [left; by exists cte_block|].
  destruct (decide (i = idx N epsi_block)); [left; by exists epsi_block|].
  right. by intros [].
Qed.

(** X10. The initial point: as long as the solver vector, the six components of
    the state at the first place of their blocks and zero everywhere else,
    the actuators included. *)
Theorem initial_point_contents (fill : T) (state : list T) :
  length state = 6%nat →
  ∃ p, Solve_setup N fill state = Some p
    ∧ Z.of_nat (length (vars p)) = n_vars N
    ∧ (∀ b, vec_get (vars p) (idx N b) = Some (state_of state b))
    ∧ (∀ b t, (1 ≤ t < N)%Z → vec_get (vars p) (idx N b + t) = Some (#0))
    ∧ (∀ k, (0 ≤ k < N - 1)%Z →
         vec_get (vars p) (idxDelta N + k) = Some (#0)
         ∧ vec_get (vars p) (idxA N + k) = Some (#0)).
Proof.
  intros Hstate.
  destruct (Solve_setup_result N HN fill state)
    as (p & Hp & (Hlen & _) & _ & _ & _ & _ & _ & Hpin & Hzero); [lia|].
  exists p. do 3 (split; [done|]). split.
  - intros b t Ht. apply Hzero; [destruct b; idx_lia|].
    intros b'. destruct b, b'; idx_lia.
  - intros k Hk. split; (apply Hzero; [idx_lia|intros b'; destruct b'; idx_lia]).
Qed.

(** X11. Every constraint is an equality: the two constraint bounds have one
    entry per constraint and are the same vector, the state at the first
    place of each block and zero at the places of the later timesteps. *)
Theorem constraint_bounds_are_equalities (fill : T) (state : list T) :
  length state = 6%nat →
  ∃ p, Solve_setup N fill state = Some p
    ∧ constraints_lowerbound p = constraints_upperbound p
    ∧ Z.of_nat (length (constraints_lowerbound p)) = n_constraints N
    ∧ (∀ b, vec_get (constraints_lowerbound p) (idx N b) = Some (state_of state b))
    ∧ (∀ b t, (1 ≤ t < N)%Z →
         vec_get (constraints_lowerbound p) (idx N b + t) = Some (#0)).
Proof.
  intros Hstate.
  destruct (Solve_setup_result N HN fill state)
    as (p & Hp & (_ & _ & _ & Hlo & Hhi) & _ & _ & _ & Hpin & Hzero & _); [lia|].
  exists p. split; [done|]. split; [|split; [done|split]].
  - apply (vectors_agree _ _ (n_constraints N)); [done..|].
    intros i Hi.
    destruct (constraint_place N HN (1 + i)) as (b & t & Ht & Hbt); [lia|].
    assert (i = idx N b + t)%Z as -> by lia.
    destruct (decide (t = 0)) as [->|Hne].
    + rewrite Z.add_0_r. destruct (Hpin b) as [-> ->]. done.
    + destruct (Hzero b t) as [-> ->]; [lia|done].
  - intros b. apply Hpin.
  - intros b t Ht. by apply Hzero.
Qed.

(** X12. No uninitialised entry reaches the solver: the five vectors do not
    depend on what the fresh vectors held before the loops wrote them. *)
Theorem Solve_setup_writes_every_entry (fill1 fill2 : T) (state : list T) :
  length state = 6%nat →
  Solve_setup N fill1 state = Solve_setup N fill2 state
  ∧ is_Some (Solve_setup N fill1 state).
Proof.
  intros Hstate.
  destruct (Solve_setup_result N HN fill1 state)
    as (p1 & Hp1 & (Lv1 & Ll1 & Lu1 & Lcl1 & Lcu1)
        & Hs1 & Hd1 & Ha1 & Hpin1 & Hzero1 & Hv1 & Hvz1); [lia|].
  destruct (Solve_setup_result N HN fill2 state)
    as (p2 & Hp2 & (Lv2 & Ll2 & Lu2 & Lcl2 & Lcu2)
        & Hs2 & Hd2 & Ha2 & Hpin2 & Hzero2 & Hv2 & Hvz2); [lia|].
  rewrite Hp1, Hp2. split; [|by eexists]. f_equal.
  assert (Hbounds : ∀ i, (0 ≤ i < n_vars N)%Z →
            vec_get (vars_lowerbound p1) i = vec_get (vars_lowerbound p2) i
            ∧ vec_get (vars_upperbound p1) i = vec_get (vars_upperbound p2) i).
  { intros i Hi.
    destruct (decide (i < idxDelta N)%Z).
    { destruct (Hs1 i) as [-> ->]; [lia|]. destruct (Hs2 i) as [-> ->]; [lia|]. done. }
    destruct (decide (i < idxA N)%Z).
    { destruct (Hd1 i) as [-> ->]; [lia|]. destruct (Hd2 i) as [-> ->]; [lia|]. done. }
    destruct (Ha1 i) as [-> ->]; [lia|]. destruct (Ha2 i) as [-> ->]; [lia|]. done. }
  assert (Hcons : ∀ i, (0 ≤ i < n_constraints N)%Z →
            vec_get (constraints_lowerbound p1) i = vec_get (constraints_lowerbound p2) i
            ∧ vec_get (constraints_upperbound p1) i
              = vec_get (constraints_upperbound p2) i).
  { intros i Hi.
    destruct (constraint_place N HN (1 + i)) as (b & t & Ht & Hbt); [lia|].
    assert (i = idx N b + t)%Z as -> by lia.
    destruct (decide (t = 0)) as [->|Hne].
    - rewrite Z.add_0_r.
      destruct (Hpin1 b) as [-> ->]. destruct (Hpin2 b) as [-> ->]. done.
    - destruct (Hzero1 b t) as [-> ->]; [lia|].
      destruct (Hzero2 b t) as [-> ->]; [lia|]. done. }
  destruct p1 as [v1 l1 u1 cl1 cu1], p2 as [v2 l2 u2 cl2 cu2]. simpl in *.
  f_equal.
  - apply (vectors_agree _ _ (n_vars N)); [done..|]. intros i Hi.
    destruct (state_place_or_not i) as [[b ->]|Hne].
    + by rewrite Hv1, Hv2.
    + by rewrite Hvz1, Hvz2.
  - apply (vectors_agree _ _ (n_vars N)); [done..|]. intros i Hi. by apply Hbounds.
  - apply (vectors_agree _ _ (n_vars N)); [done..|]. intros i Hi. by apply Hbounds.
  - apply (vectors_agree _ _ (n_constraints N)); [done..|]. intros i Hi. by apply Hcons.
  - apply (vectors_agree _ _ (n_constraints N)); [done..|]. intros i Hi. by apply Hcons.
Qed.

(** X13. The initial point satisfies the six constraints of timestep 0 exactly:
    evaluated at it, each of these entries is the value of both of its
    bounds. *)
Theorem initial_point_meets_pin (fill : T) (state coeffs fg : list T) :
  length state = 6%nat →
  (4 ≤ length coeffs)%nat →
  Z.of_nat (length fg) = (1 + n_constraints N)%Z →
  ∃ p fg', Solve_setup N fill state = Some p
    ∧ FG_eval N coeffs fg (vars p) = Some fg'
    ∧ ∀ b, constraint N fg' b 0 = vec_get (constraints_lowerbound p) (idx N b)
         ∧ constraint N fg' b 0 = vec_get (constraints_upperbound p) (idx N b)
         ∧ constraint N fg' b 0 = Some (state_of state b).
Proof.
  intros Hstate Hcoeffs Hfg.
  destruct (Solve_setup_result N HN fill state)
    as (p & Hp & (Hlen & _) & _ & _ & _ & Hpin & _ & Hv & _); [lia|].
  destruct (FG_eval_result N HN coeffs (vars p) Hlen Hcoeffs fg Hfg)
    as (fg' & Hrun & _ & _ & Hinit & _).
  exists p, fg'. do 2 (split; [done|]). intros b.
  destruct (Hpin b) as [-> ->]. rewrite Hinit.
  assert (variable N (vars p) b 0 = state_of state b) as ->; [|done].
  unfold variable, at_index. by rewrite Z.add_0_r, Hv.
Qed.

End ProblemProperties.

(** ** [Solve] outside its domain *)

(** X14. [Solve] reads [state[0]] to [state[5]] before anything else: with a
    state of fewer than six entries it has no result, whatever the solver
    is. *)
Theorem Solve_needs_six_state_entries {T} `{Scalar T} N (sv : solver T) (fill : T)
    (state coeffs : list T) :
  (length state < 6)%nat → Solve N sv fill state coeffs = None.
Proof.
  intros Hstate. unfold Solve.
  assert (Solve_setup N fill state = None) as ->; [|done].
  unfold Solve_setup.
  destruct state as [|s0 [|s1 [|s2 [|s3 [|s4 [|s5 rest]]]]]]; try done.
  simpl in Hstate. lia.
Qed.

(** X15. A horizon of one step is not rejected and leaves no actuator in the
    solver vector: [idxDelta] and [idxA] are its length, and [Solve] reads
    the command past the end of a solution of that length, so it has no
    result. *)
Theorem Solve_horizon_1_reads_past_end {T} `{Scalar T} (sv : solver T) (fill : T)
    (state coeffs : list T) :
  (∀ o xi xl xu gl gu f, length (ipopt.x (sv o xi xl xu gl gu f)) = length xi) →
  idxDelta 1 = n_vars 1 ∧ idxA 1 = n_vars 1
  ∧ Solve 1 sv fill state coeffs = None.
Proof.
  intros Hsv. do 2 (split; [reflexivity|]). unfold Solve.
  destruct (Solve_setup 1 fill state) as [p|] eqn:E; [|done].
  rewrite option_bind_Some_l.
  assert (Hlen : length (vars p) = 6%nat).
  { destruct state as [|s0 [|s1 [|s2 [|s3 [|s4 [|s5 rest]]]]]]; try done.
    vm_compute in E. by injection E as <-. }
  unfold Solve_extract. cbv zeta.
  match goal with
  | |- vec_get ?x _ ≫= _ = None => assert (vec_get x (idxDelta 1) = None) as ->
  end; [|done].
  apply lookup_ge_None_2. rewrite Hsv, Hlen. done.
Qed.

(** ** The initial point and the bounds, over the real numbers *)

(** X16. The solver starts inside its box: when the components of the state lie
    within the bounds of the state blocks, every entry of the initial point
    lies between its lower and its upper bound (the actuators start at 0,
    inside their ranges). *)
Theorem initial_point_within_bounds N (fill : R) (state : list R) :
  valid_horizon N →
  length state = 6%nat →
  (∀ b, Q2R (-1e23) <= state_of state b ∧ state_of state b <= Q2R 1e23)%R →
  ∃ p, Solve_setup N fill state = Some p
    ∧ within_bounds (vars_lowerbound p) (vars_upperbound p) (vars p).
Proof.
  intros HN Hstate Hrange.
  destruct (Solve_setup_result N HN fill state)
    as (p & Hp & (Hlen & _) & Hs & Hd & Ha & _ & _ & Hv & Hvz); [lia|].
  exists p. split; [done|]. intros i lo hi a Hlo Hhi Hget.
  assert (Hi : (0 ≤ Z.of_nat i < n_vars N)%Z).
  { apply lookup_lt_Some in Hget. lia. }
  assert (Hvec : ∀ v : list R, vec_get v (Z.of_nat i) = v !! i).
  { intros v. unfold vec_get. by rewrite Nat2Z.id. }
  assert (Hzero : (Q2R 0 = 0)%R) by apply RMicromega.Q2R_0.
  destruct (decide (Z.of_nat i < idxDelta N)%Z) as [H1|H1].
  { destruct (Hs (Z.of_nat i)) as [El Eu]; [lia|].
    rewrite Hvec, Hlo in El. rewrite Hvec, Hhi in Eu.
    injection El as ->. injection Eu as ->.
    destruct (state_place_or_not N (Z.of_nat i)) as [[b Hb]|Hne].
    - specialize (Hv b). rewrite <- Hb, Hvec, Hget in Hv. injection Hv as ->.
      apply Hrange.
    - specialize (Hvz _ Hi Hne). rewrite Hvec, Hget in Hvz. injection Hvz as ->.
      change (Q2R (-1e23) <= Q2R 0 ∧ Q2R 0 <= Q2R 1e23)%R. rewrite Hzero.
      split; [apply Q2R_nonpos|apply Q2R_nonneg]; discriminate. }
  assert (Hne : ∀ b, Z.of_nat i ≠ idx N b) by (intros b; destruct b; idx_lia).
  specialize (Hvz _ Hi Hne). rewrite Hvec, Hget in Hvz. injection Hvz as ->.
  destruct (decide (Z.of_nat i < idxA N)%Z) as [H2|H2].
  { destruct (Hd (Z.of_nat i)) as [El Eu]; [lia|].
    rewrite Hvec, Hlo in El. rewrite Hvec, Hhi in Eu.
    injection El as ->. injection Eu as ->.
    change (Q2R (-0.436332) <= Q2R 0 ∧ Q2R 0 <= Q2R 0.436332)%R. rewrite Hzero.
    split; [apply Q2R_nonpos|apply Q2R_nonneg]; discriminate. }
  destruct (Ha (Z.of_nat i)) as [El Eu]; [lia|].
  rewrite Hvec, Hlo in El. rewrite Hvec, Hhi in Eu.
  injection El as ->. injection Eu as ->.
  change (Q2R (-1.0) <= Q2R 0 ∧ Q2R 0 <= Q2R 1.0)%R. rewrite Hzero.
  split; [apply Q2R_nonpos|apply Q2R_nonneg]; discriminate.
Qed.

(** ** Concrete instances of the further properties *)

Lemma vectors_sizes_and_blocks_witness :
  n_vars N_default = 78%Z ∧ n_constraints N_default = 60%Z.
Proof.
  destruct (vectors_sizes_and_blocks N_default valid_horizon_default)
    as (Hv & Hc & _).
  split; [exact Hv|exact Hc].
Defined.

Lemma variables_have_distinct_places_witness :
  (idx N_default cte_block + 3)%Z ≠ (idxDelta N_default + 3)%Z.
Proof.
  destruct (variables_have_distinct_places N_default valid_horizon_default
              cte_block cte_block 3 3 3 3) as (_ & Hd & _);
    [unfold N_default; lia..|].
  exact Hd.
Defined.

Lemma every_place_holds_a_variable_witness :
  (∃ b t, (0 ≤ t < N_default)%Z ∧ 77%Z = (idx N_default b + t)%Z)
  ∨ (∃ k, (0 ≤ k < N_default - 1)%Z ∧ 77%Z = (idxDelta N_default + k)%Z)
  ∨ (∃ k, (0 ≤ k < N_default - 1)%Z ∧ 77%Z = (idxA N_default + k)%Z).
Proof.
  apply (every_place_holds_a_variable N_default valid_horizon_default 77).
  split; [lia|reflexivity].
Defined.

Lemma FG_eval_overwrites_fg_witness :
  ∃ g, FG_eval N_default Sample.coeffs Sample.fg Sample.initial_point = Some g
    ∧ FG_eval N_default Sample.coeffs (replicate 61 1%R) Sample.initial_point = Some g
    ∧ length g = length Sample.fg.
Proof.
  apply (FG_eval_overwrites_fg N_default valid_horizon_default Sample.coeffs
           Sample.fg (replicate 61 1%R) Sample.initial_point).
  - simpl. lia.
  - reflexivity.
  - reflexivity.
  - reflexivity.
Defined.

Lemma cost_ignores_position_witness :
  ∃ g1 g2, FG_eval N_default Sample.coeffs Sample.fg Sample.zeros = Some g1
    ∧ FG_eval N_default Sample.coeffs Sample.fg Sample.x1_is_1 = Some g2
    ∧ vec_get g1 0 = vec_get g2 0.
Proof.
  apply (cost_ignores_position N_default valid_horizon_default Sample.coeffs
           Sample.fg Sample.zeros Sample.x1_is_1).
  - simpl. lia.
  - reflexivity.
  - reflexivity.
  - reflexivity.
  - intros i Hi. change (idxV N_default) with 30%Z in Hi.
    unfold vec_get, Sample.x1_is_1. by rewrite list_lookup_insert_ne by lia.
Defined.

Lemma dynamics_are_local_witness :
  ∃ g1 g2, FG_eval N_default Sample.coeffs Sample.fg Sample.zeros = Some g1
    ∧ FG_eval N_default Sample.coeffs Sample.fg Sample.x1_is_1 = Some g2
    ∧ ∀ b, constraint N_default g1 b 5 = constraint N_default g2 b 5.
Proof.
  apply (dynamics_are_local N_default valid_horizon_default Sample.coeffs
           Sample.fg Sample.zeros Sample.x1_is_1 5).
  - simpl. lia.
  - reflexivity.
  - reflexivity.
  - reflexivity.
  - unfold N_default. lia.
  - intros b. by destruct b.
  - intros b. by destruct b.
  - reflexivity.
  - reflexivity.
Defined.

Lemma FG_eval_degenerate_horizon_witness :
  FG_eval 1 Sample.coeffs (replicate 7 0%R) (replicate 6 0%R) = None.
Proof.
  apply (FG_eval_degenerate_horizon 1 Sample.coeffs (replicate 7 0%R) (replicate 6 0%R)).
  lia.
Defined.

Lemma FG_eval_needs_four_coefficients_witness :
  FG_eval N_default [0.5; 0.1; 0]%R Sample.fg Sample.initial_point = None.
Proof.
  apply (FG_eval_needs_four_coefficients N_default valid_horizon_default
           [0.5; 0.1; 0]%R Sample.fg Sample.initial_point).
  - simpl. lia.
  - reflexivity.
  - reflexivity.
Defined.

Lemma cost_is_nonnegative_witness :
  ∃ g c, FG_eval N_default Sample.coeffs Sample.fg Sample.initial_point = Some g
    ∧ vec_get g 0 = Some c ∧ (0 <= c)%R.
Proof.
  apply (cost_is_nonnegative N_default Sample.coeffs Sample.fg Sample.initial_point).
  - exact valid_horizon_default.
  - simpl. lia.
  - reflexivity.
  - reflexivity.
Defined.

Lemma initial_point_contents_witness :
  ∃ p, Solve_setup N_default 7%R Sample.state = Some p
    ∧ vec_get (vars p) (idx N_default v_block) = Some 50%R
    ∧ vec_get (vars p) (idxDelta N_default + 0) = Some (Q2R 0).
Proof.
  destruct (initial_point_contents N_default valid_horizon_default 7%R Sample.state)
    as (p & Hp & _ & Hpin & _ & Hact); [reflexivity|].
  exists p. split; [exact Hp|]. split; [exact (Hpin v_block)|].
  destruct (Hact 0%Z) as [Hdelta _]; [unfold N_default; lia|]. exact Hdelta.
Defined.

Lemma constraint_bounds_are_equalities_witness :
  ∃ p, Solve_setup N_default 7%R Sample.state = Some p
    ∧ constraints_lowerbound p = constraints_upperbound p
    ∧ vec_get (constraints_lowerbound p) (idx N_default cte_block) = Some 1%R.
Proof.
  destruct (constraint_bounds_are_equalities N_default valid_horizon_default 7%R
              Sample.state) as (p & Hp & Heq & _ & Hpin & _); [reflexivity|].
  exists p. split; [exact Hp|]. split; [exact Heq|exact (Hpin cte_block)].
Defined.

Lemma Solve_setup_writes_every_entry_witness :
  Solve_setup N_default 7%R Sample.state = Solve_setup N_default 0%R Sample.state
  ∧ is_Some (Solve_setup N_default 7%R Sample.state).
Proof.
  apply (Solve_setup_writes_every_entry N_default valid_horizon_default 7%R 0%R
           Sample.state).
  reflexivity.
Defined.

Lemma initial_point_meets_pin_witness :
  ∃ p fg', Solve_setup N_default 0%R Sample.state = Some p
    ∧ FG_eval N_default Sample.coeffs Sample.fg (vars p) = Some fg'
    ∧ ∀ b, constraint N_default fg' b 0
           = vec_get (constraints_lowerbound p) (idx N_default b)
         ∧ constraint N_default fg' b 0
           = vec_get (constraints_upperbound p) (idx N_default b)
         ∧ constraint N_default fg' b 0 = Some (state_of Sample.state b).
Proof.
  apply (initial_point_meets_pin N_default valid_horizon_default 0%R Sample.state
           Sample.coeffs Sample.fg).
  - reflexivity.
  - simpl. lia.
  - reflexivity.
Defined.

Lemma Solve_needs_six_state_entries_witness :
  Solve N_default Sample.stalled 0%R [0; 1; 0; 50; 1]%R Sample.coeffs = None.
Proof.
  apply (Solve_needs_six_state_entries N_default Sample.stalled 0%R
           [0; 1; 0; 50; 1]%R Sample.coeffs).
  simpl. lia.
Defined.

Lemma Solve_horizon_1_reads_past_end_witness :
  idxDelta 1 = n_vars 1 ∧ idxA 1 = n_vars 1
  ∧ Solve 1 Sample.stalled 0%R Sample.state Sample.coeffs = None.
Proof.
  apply (Solve_horizon_1_reads_past_end Sample.stalled 0%R Sample.state Sample.coeffs).
  intros o xi xl xu gl gu f. reflexivity.
Defined.

Lemma initial_point_within_bounds_witness :
  ∃ p, Solve_setup N_default 0%R Sample.at_rest = Some p
    ∧ within_bounds (vars_lowerbound p) (vars_upperbound p) (vars p).
Proof.
  apply (initial_point_within_bounds N_default 0%R Sample.at_rest).
  - exact valid_horizon_default.
  - reflexivity.
  - intros b.
    assert (state_of Sample.at_rest b = 0%R) as -> by (by destruct b).
    split; [apply Q2R_nonpos|apply Q2R_nonneg]; discriminate.
Defined.
